(** * Redex: ClassInitCounter tracked values and the parallel WorkQueue

    A shallow embedding of
      - service/class-init/ClassInitCounter.h (namespace [cic]): the
        tracked-value domain, [TrackedHasher], [TrackedComparer] and
        [RegisterSet];
      - the work-queue header ([workqueue_impl::create_permutation],
        [WorkerState], [WorkQueue], [workqueue_mapreduce]);
      - the [redexdump] driver script.

    Pointers to IR objects ([IRInstruction*], [DexType*]) are compared by
    address only, so they are embedded as positive numbers.  A
    [std::shared_ptr<TrackedUses>] is embedded as [option TrackedUses]:
    [None] is the null pointer (bottom of the lattice) and [Some u] points to
    the object [u]; the modelled operations never compare the addresses of
    tracked values, only their contents. *)

From Stdlib Require Import ZArith Lia String.
From stdpp Require Import gmap list.

Local Open Scope Z_scope.

Module cic.

(** ** Data model *)

Definition IRInstruction := positive.
Definition DexType := positive.
(** [reg_t] is declared in IRInstruction.h as an unsigned integer type. *)
Definition reg_t := N.
Definition size_t := Z.

Inductive FlowStatus := Conditional | AllPaths.

Inductive Tracked := Object | Merged.

Definition Tracked_eqb (a b : Tracked) : bool :=
  match a, b with
  | Object, Object | Merged, Merged => true
  | _, _ => false
  end.

(** The usage sub-records of the base class ([method_calls], [fields_set],
    [fields_read], [escapes], [safe_escapes]) are read by none of the
    operations below and are left out of the records. *)
Record ObjectUses := mkObjectUses {
  m_id : IRInstruction;
  m_class_used : DexType;
  created_flow : FlowStatus
}.

Record MergedUses := mkMergedUses {
  m_instrs : gset IRInstruction;
  m_classes : gset DexType;
  m_includes_nullable : bool
}.

Inductive TrackedUses :=
| ObjectUses_ (o : ObjectUses)
| MergedUses_ (m : MergedUses).

Definition m_tracked_kind (u : TrackedUses) : Tracked :=
  match u with
  | ObjectUses_ _ => Object
  | MergedUses_ _ => Merged
  end.

Abbreviation shared_ptr := (option TrackedUses).

(** [ObjectUses(typ, instr)]: [created_flow] starts as [AllPaths]. *)
Definition ObjectUses_new (typ : DexType) (instr : IRInstruction) : ObjectUses :=
  {| m_id := instr; m_class_used := typ; created_flow := AllPaths |}.

Definition same_instr (o other : ObjectUses) : bool :=
  Pos.eqb (m_id o) (m_id other).

Definition get_instr (o : ObjectUses) : IRInstruction := m_id o.
Definition get_represents_typ (o : ObjectUses) : DexType := m_class_used o.
Definition is_nullable (m : MergedUses) : bool := m_includes_nullable m.

Definition set_is_nullable (m : MergedUses) : MergedUses :=
  {| m_instrs := m_instrs m; m_classes := m_classes m;
     m_includes_nullable := true |}.

(** Modelled from the spec: [MergedUses::same_instrs] is declared in the
    header and defined elsewhere.  "two MergedUses are equal iff their I sets
    are equal". *)
Definition same_instrs (m other : MergedUses) : bool :=
  bool_decide (m_instrs m = m_instrs other).

(** Modelled from the spec: the [MergedUses] constructor from two objects is
    declared in the header and defined elsewhere.  "promote both into a new
    MergedUses({i, j}, {T_i, T_j})". *)
Definition MergedUses_new2 (a b : ObjectUses) : MergedUses :=
  {| m_instrs := {[ m_id a ]} ∪ {[ m_id b ]};
     m_classes := {[ m_class_used a ]} ∪ {[ m_class_used b ]};
     m_includes_nullable := false |}.

Section Domain.

(** [IRInstruction::hash] and [MergedUses::hash] are defined outside the
    header; every choice of them is allowed. *)
Variable IRInstruction_hash : IRInstruction → size_t.
Variable MergedUses_hash : MergedUses → size_t.

(** The direction in which the nullable flags of two [MergedUses] have to
    agree is left open by the spec ("agree in the direction needed"). *)
Variable nullable_agree : bool → bool → bool.

Definition hash (u : TrackedUses) : size_t :=
  match u with
  | ObjectUses_ o => IRInstruction_hash (m_id o)
  | MergedUses_ m => MergedUses_hash m
  end.

(** [TrackedHasher::operator()]: [o->hash()]; [None] when [o] is the null
    pointer, which the call dereferences. *)
Definition TrackedHasher (o : shared_ptr) : option size_t :=
  match o with
  | None => None
  | Some u => Some (hash u)
  end.

(** [TrackedComparer::operator()].  After the kinds were found equal the two
    [reinterpret_cast]s read both objects at the variant of [l]. *)
Definition TrackedComparer (l r : shared_ptr) : bool :=
  match l, r with
  | None, None => true
  | None, Some _ | Some _, None => false
  | Some lu, Some ru =>
      if negb (Tracked_eqb (m_tracked_kind lu) (m_tracked_kind ru)) then false
      else
        match lu, ru with
        | MergedUses_ lm, MergedUses_ rm => same_instrs lm rm
        | ObjectUses_ lo, ObjectUses_ ro => same_instr lo ro
        | _, _ => false
        end
  end.

(** Modelled from the spec: [ObjectUses::consistent_with] is declared in the
    header and defined elsewhere.  "true iff other is the same ObjectUses(i)
    or a MergedUses whose instruction set contains i". *)
Definition ObjectUses_consistent_with (o : ObjectUses) (other : TrackedUses) : bool :=
  match other with
  | ObjectUses_ o' => same_instr o o'
  | MergedUses_ m => bool_decide (m_id o ∈ m_instrs m)
  end.

(** Modelled from the spec: [MergedUses::consistent_with] is declared in the
    header and defined elsewhere.  "iff other is MergedUses(I', …) with
    I' = I (and nullable flags agree in the direction needed), or
    ObjectUses(j) with j ∈ I (reverse direction is false)": the relation
    between an object and a merged value holds from the object to the merged
    value only, as the header says ("Object(i) consistent_with
    Merged({i, i'})"). *)
Definition MergedUses_consistent_with (m : MergedUses) (other : TrackedUses) : bool :=
  match other with
  | MergedUses_ m' =>
      same_instrs m m' && nullable_agree (m_includes_nullable m) (m_includes_nullable m')
  | ObjectUses_ _ => false
  end.

(** The virtual call [this->consistent_with(other)]. *)
Definition consistent_with (this other : TrackedUses) : bool :=
  match this with
  | ObjectUses_ o => ObjectUses_consistent_with o other
  | MergedUses_ m => MergedUses_consistent_with m other
  end.

(** *** [UsedSet]: [std::unordered_set] under [TrackedHasher] / [TrackedComparer]

    The elements are kept in insertion order.  A lookup for key [x] with hash
    code [h] finds a stored element [y] when [y] has the hash code [h] and the
    comparer accepts the pair. *)
Definition UsedSet := list shared_ptr.

Definition key_match (h : size_t) (x y : shared_ptr) : bool :=
  match TrackedHasher y with
  | Some h' => Z.eqb h' h && TrackedComparer x y
  | None => false
  end.

(** [s.count(x) != 0]. *)
Definition UsedSet_contains (s : UsedSet) (x : shared_ptr) : option bool :=
  match TrackedHasher x with
  | None => None
  | Some h => Some (existsb (key_match h x) s)
  end.

(** [s.insert(x)]: nothing is stored when an equivalent key is present. *)
Definition UsedSet_insert (s : UsedSet) (x : shared_ptr) : option UsedSet :=
  match TrackedHasher x with
  | None => None
  | Some h => Some (if existsb (key_match h x) s then s else s ++ [x])
  end.

(** *** [RegisterSet] *)
Record RegisterSet := mkRegisterSet {
  m_all_uses : UsedSet;
  m_registers : gmap reg_t shared_ptr
}.

(** [RegisterSet()] *)
Definition RegisterSet_new : RegisterSet :=
  {| m_all_uses := []; m_registers := ∅ |}.

(** [insert(i, uses)]; [None] when hashing [uses] dereferences null. *)
Definition RegisterSet_insert (i : reg_t) (uses : shared_ptr) (R : RegisterSet)
  : option RegisterSet :=
  match UsedSet_insert (m_all_uses R) uses with
  | None => None
  | Some all => Some {| m_all_uses := all; m_registers := <[ i := uses ]> (m_registers R) |}
  end.

(** [clear(i)] *)
Definition RegisterSet_clear (i : reg_t) (R : RegisterSet) : RegisterSet :=
  match m_registers R !! i with
  | Some _ => {| m_all_uses := m_all_uses R; m_registers := <[ i := None ]> (m_registers R) |}
  | None => R
  end.

(** [get(i)] *)
Definition RegisterSet_get (i : reg_t) (R : RegisterSet) : shared_ptr :=
  match m_registers R !! i with
  | None => None
  | Some val => val
  end.

(** [is_empty(i)] *)
Definition RegisterSet_is_empty (i : reg_t) (R : RegisterSet) : bool :=
  match m_registers R !! i with
  | None => true
  | Some value => negb (bool_decide (is_Some value))
  end.

(** A history of register-file calls, run from some register file. *)
Inductive RegOp :=
| OpInsert (i : reg_t) (u : TrackedUses)
| OpClear (i : reg_t).

Definition inserts_into (i : reg_t) (op : RegOp) : Prop :=
  match op with OpInsert j _ => j = i | OpClear _ => False end.

Fixpoint run_ops (ops : list RegOp) (R : RegisterSet) : option RegisterSet :=
  match ops with
  | [] => Some R
  | OpInsert i u :: ops' =>
      match RegisterSet_insert i (Some u) R with
      | Some R' => run_ops ops' R'
      | None => None
      end
  | OpClear i :: ops' => run_ops ops' (RegisterSet_clear i R)
  end.

(** *** The lattice operators and the promoted-merged store

    [combine_paths] and [merge] of the tracked values, the [MergedUses]
    constructors and [RegisterSet::merge_registers] are declared in the
    header and defined elsewhere.  The usage sub-records, which are left out
    of the records, carry the flow status of a merged value. *)

(** Modelled from the spec: the join of two [created_flow] flags, "take the
    join of the created_flow flags (Conditional absorbs AllPaths)". *)
Definition flow_join (a b : FlowStatus) : FlowStatus :=
  match a, b with
  | AllPaths, AllPaths => AllPaths
  | _, _ => Conditional
  end.

(** The flag [merge] gives two objects of one instruction is left open by
    the spec, two [AllPaths] apart ("Conditional only arises when the other
    side is strictly ⊥; two AllPaths from sequential blocks compose to
    AllPaths"). *)
Variable merge_flow : FlowStatus → FlowStatus → FlowStatus.

Inductive LatticeOp := CombinePaths | Merge.

Definition op_flow (op : LatticeOp) : FlowStatus → FlowStatus → FlowStatus :=
  match op with
  | CombinePaths => flow_join
  | Merge => merge_flow
  end.

(** Modelled from the spec: a merged value extended by an object,
    "combine_paths(ObjectUses(j)) adds j to I, its type to C". *)
Definition extend_merged (m : MergedUses) (o : ObjectUses) : MergedUses :=
  {| m_instrs := m_instrs m ∪ {[ m_id o ]};
     m_classes := m_classes m ∪ {[ m_class_used o ]};
     m_includes_nullable := m_includes_nullable m |}.

(** Modelled from the spec: "combine_paths(MergedUses(I', C', n')) unions
    the sets and ORs the nullable flags". *)
Definition union_merged (m m' : MergedUses) : MergedUses :=
  {| m_instrs := m_instrs m ∪ m_instrs m';
     m_classes := m_classes m ∪ m_classes m';
     m_includes_nullable := m_includes_nullable m || m_includes_nullable m' |}.

(** Modelled from the spec: [combine_paths] and [merge] of [ObjectUses] and
    of [MergedUses], whose bodies are not in the header.  Of an
    [ObjectUses(i, T)]: "if other is ⊥, result is this with created_flow =
    Conditional.  If other is ObjectUses(i, _) (same instruction), keep
    ObjectUses, take the join of the created_flow flags.  If other is
    ObjectUses(j, _) with j ≠ i, promote both into a new MergedUses({i, j},
    {T_i, T_j}).  If other is MergedUses that contains i, the result is a
    clone of other extended with any classes/instructions not yet present".
    Of a [MergedUses(I, C, nullable)]: "combine_paths(ObjectUses(j)) adds j
    to I, its type to C; combine_paths(⊥) sets nullable = true;
    combine_paths(MergedUses(I', C', n')) unions the sets and ORs the
    nullable flags".  Of both: "merge(other): like combine_paths".  An
    object combined with a merged value that lacks its instruction is
    extended like one that holds it. *)
Definition lattice_op (op : LatticeOp) (this : TrackedUses) (other : shared_ptr)
  : TrackedUses :=
  match this, other with
  | ObjectUses_ o, None =>
      ObjectUses_ (mkObjectUses (m_id o) (m_class_used o) Conditional)
  | ObjectUses_ o, Some (ObjectUses_ o') =>
      if same_instr o o'
      then ObjectUses_ (mkObjectUses (m_id o) (m_class_used o)
                          (op_flow op (created_flow o) (created_flow o')))
      else MergedUses_ (MergedUses_new2 o o')
  | ObjectUses_ o, Some (MergedUses_ m) => MergedUses_ (extend_merged m o)
  | MergedUses_ m, None => MergedUses_ (set_is_nullable m)
  | MergedUses_ m, Some (ObjectUses_ o) => MergedUses_ (extend_merged m o)
  | MergedUses_ m, Some (MergedUses_ m') => MergedUses_ (union_merged m m')
  end.

Definition combine_paths : TrackedUses → shared_ptr → TrackedUses :=
  lattice_op CombinePaths.
Definition merge : TrackedUses → shared_ptr → TrackedUses := lattice_op Merge.

(** [type_of] is the type a construction instruction creates, which every
    [ObjectUses] built for it carries ("ObjectUses(i, T): the value was
    produced by exactly one construction instruction i of type T"). *)
Variable type_of : IRInstruction → DexType.





(** ** Properties of the comparer and of the tracked-value relation *)

Lemma same_instr_spec (a b : ObjectUses) : same_instr a b = true ↔ m_id a = m_id b.
Proof. unfold same_instr. apply Pos.eqb_eq. Qed.

Lemma same_instrs_spec (a b : MergedUses) :
  same_instrs a b = true ↔ m_instrs a = m_instrs b.
Proof. unfold same_instrs. apply bool_decide_eq_true. Qed.

Lemma TrackedComparer_refl (u : TrackedUses) : TrackedComparer (Some u) (Some u) = true.
Proof.
  destruct u as [o|m]; simpl.
  - by apply same_instr_spec.
  - by apply same_instrs_spec.
Qed.

Lemma TrackedComparer_null_l (r : shared_ptr) :
  TrackedComparer None r = bool_decide (r = None).
Proof. by destruct r. Qed.

(** C9: equality under [TrackedComparer] is by variant and by construction
    site: values of different variants are never equal, two [ObjectUses] are
    equal exactly when their creating instructions coincide, and two
    [MergedUses] exactly when their instruction sets are equal, whatever
    their types, flow and nullable flags are. *)
Theorem TrackedComparer_by_variant_and_sites :
  (∀ o m, TrackedComparer (Some (ObjectUses_ o)) (Some (MergedUses_ m)) = false
          ∧ TrackedComparer (Some (MergedUses_ m)) (Some (ObjectUses_ o)) = false)
  ∧ (∀ a b, m_tracked_kind a ≠ m_tracked_kind b →
            TrackedComparer (Some a) (Some b) = false)
  ∧ (∀ i t1 f1 t2 f2 j,
        TrackedComparer (Some (ObjectUses_ (mkObjectUses i t1 f1)))
                        (Some (ObjectUses_ (mkObjectUses j t2 f2))) = true ↔ i = j)
  ∧ (∀ I1 C1 n1 I2 C2 n2,
        TrackedComparer (Some (MergedUses_ (mkMergedUses I1 C1 n1)))
                        (Some (MergedUses_ (mkMergedUses I2 C2 n2))) = true ↔ I1 = I2).
Proof.
  repeat split; try done.
  - destruct a, b; simpl; congruence.
  - simpl. by intros ?%same_instr_spec.
  - intros ->. simpl. by apply same_instr_spec.
  - simpl. by intros ?%same_instrs_spec.
  - intros ->. simpl. by apply same_instrs_spec.
Qed.

(** C1: an object is consistent with itself and with every merged value
    whose instruction set holds its instruction, and no merged value is
    consistent with an object. *)
Theorem consistent_with_reflexive_not_symmetric :
  (∀ o, consistent_with (ObjectUses_ o) (ObjectUses_ o) = true)
  ∧ (∀ o m, m_id o ∈ m_instrs m →
            consistent_with (ObjectUses_ o) (MergedUses_ m) = true
            ∧ consistent_with (MergedUses_ m) (ObjectUses_ o) = false).
Proof.
  split.
  - intros o. simpl. by apply same_instr_spec.
  - intros o m Hin. simpl. split; [|done]. by apply bool_decide_eq_true.
Qed.

(** ** Properties of the register file *)

Lemma clear_all_uses (i : reg_t) (R : RegisterSet) :
  m_all_uses (RegisterSet_clear i R) = m_all_uses R.
Proof. unfold RegisterSet_clear. by destruct (m_registers R !! i). Qed.

Lemma clear_registers (i j : reg_t) (R : RegisterSet) :
  m_registers (RegisterSet_clear i R) !! j =
    if decide (i = j) then (λ _, None) <$> m_registers R !! j
    else m_registers R !! j.
Proof.
  unfold RegisterSet_clear. case_decide as Hij.
  - subst j. destruct (m_registers R !! i) eqn:E; simpl.
    + by rewrite lookup_insert_eq.
    + by rewrite E.
  - destruct (m_registers R !! i); simpl; [|done]. by rewrite lookup_insert_ne.
Qed.

Lemma key_match_self (u : TrackedUses) : key_match (hash u) (Some u) (Some u) = true.
Proof. unfold key_match, TrackedHasher. by rewrite Z.eqb_refl, TrackedComparer_refl. Qed.

Lemma UsedSet_insert_contains (s : UsedSet) (u : TrackedUses) :
  ∃ s', UsedSet_insert s (Some u) = Some s'
        ∧ UsedSet_contains s' (Some u) = Some true
        ∧ (s' = s ∨ s' = s ++ [Some u]).
Proof.
  unfold UsedSet_insert, UsedSet_contains. simpl.
  destruct (existsb (key_match (hash u) (Some u)) s) eqn:E.
  - exists s. by rewrite E; auto.
  - exists (s ++ [Some u]). split; [done|]. split; [|by right].
    rewrite existsb_app. simpl. by rewrite key_match_self, orb_true_r.
Qed.

(** Membership is never lost by a later insertion. *)
Lemma UsedSet_insert_mono (s s' : UsedSet) (x y : shared_ptr) :
  UsedSet_insert s x = Some s' →
  UsedSet_contains s y = Some true → UsedSet_contains s' y = Some true.
Proof.
  unfold UsedSet_insert, UsedSet_contains.
  destruct (TrackedHasher x) as [hx|]; [|done].
  destruct (TrackedHasher y) as [hy|]; [|done].
  intros [= <-] [= Hy]. f_equal.
  destruct (existsb (key_match hx x) s); [done|].
  by rewrite existsb_app, Hy.
Qed.

(** C2: a value inserted into register [i] is found in the all-seen set
    after [i] is cleared, and [clear] leaves the all-seen set as it was. *)
Theorem insert_clear_keeps_all_uses :
  (∀ R i v, ∃ R1,
      RegisterSet_insert i (Some v) R = Some R1
      ∧ UsedSet_contains (m_all_uses (RegisterSet_clear i R1)) (Some v) = Some true)
  ∧ (∀ R i, m_all_uses (RegisterSet_clear i R) = m_all_uses R).
Proof.
  split; [|intros; apply clear_all_uses].
  intros R i v. unfold RegisterSet_insert.
  destruct (UsedSet_insert_contains (m_all_uses R) v) as (s' & -> & Hin & _).
  eexists. split; [done|]. by rewrite clear_all_uses.
Qed.

Lemma run_ops_total (ops : list RegOp) (R : RegisterSet) : is_Some (run_ops ops R).
Proof.
  revert R. induction ops as [|[i u|i] ops IH]; intros R; cbn [run_ops]; [done| |done].
  unfold RegisterSet_insert.
  destruct (UsedSet_insert_contains (m_all_uses R) u) as (s' & -> & _). apply IH.
Qed.

(** A register no call of the history inserts into stays out of the map. *)
Lemma never_inserted_absent (ops : list RegOp) (i : reg_t) (R R' : RegisterSet) :
  Forall (λ op, ¬ inserts_into i op) ops →
  m_registers R !! i = None →
  run_ops ops R = Some R' →
  m_registers R' !! i = None.
Proof.
  intros Hops. revert R. induction Hops as [|op ops Hop _ IH]; intros R Hi; cbn [run_ops].
  { by intros [= <-]. }
  destruct op as [j u|j]; simpl in Hop.
  - unfold RegisterSet_insert.
    destruct (UsedSet_insert (m_all_uses R) (Some u)) as [s'|]; [|done].
    apply IH. simpl. rewrite lookup_insert_ne; [done|]. intros ->. by apply Hop.
  - apply IH. rewrite clear_registers. case_decide; [|done]. subst. by rewrite Hi.
Qed.

(** C10: after [clear(i)] register [i] reads as bottom and is empty, whether
    or not it was ever written; every other register and the all-seen set
    are as before; a register that is not in the map, as is every register
    that no call since construction inserted into, reads as bottom and is
    empty. *)
Theorem clear_get_is_empty_frame :
  (∀ R i, RegisterSet_get i (RegisterSet_clear i R) = None
          ∧ RegisterSet_is_empty i (RegisterSet_clear i R) = true)
  ∧ (∀ R i j, j ≠ i →
       m_registers (RegisterSet_clear i R) !! j = m_registers R !! j
       ∧ RegisterSet_get j (RegisterSet_clear i R) = RegisterSet_get j R
       ∧ RegisterSet_is_empty j (RegisterSet_clear i R) = RegisterSet_is_empty j R)
  ∧ (∀ R i, m_all_uses (RegisterSet_clear i R) = m_all_uses R)
  ∧ (∀ R i, m_registers R !! i = None →
       RegisterSet_get i R = None ∧ RegisterSet_is_empty i R = true)
  ∧ (∀ ops i, Forall (λ op, ¬ inserts_into i op) ops →
       ∃ R, run_ops ops RegisterSet_new = Some R
            ∧ RegisterSet_get i R = None ∧ RegisterSet_is_empty i R = true).
Proof.
  assert (∀ R i, m_registers R !! i = None →
            RegisterSet_get i R = None ∧ RegisterSet_is_empty i R = true) as Habsent.
  { intros R i Hi. unfold RegisterSet_get, RegisterSet_is_empty. by rewrite Hi. }
  split_and!; [| | |done|].
  - intros R i. unfold RegisterSet_get, RegisterSet_is_empty.
    rewrite clear_registers, decide_True by done.
    by destruct (m_registers R !! i).
  - intros R i j Hne. unfold RegisterSet_get, RegisterSet_is_empty.
    by rewrite clear_registers, decide_False by done.
  - intros. apply clear_all_uses.
  - intros ops i Hops. destruct (run_ops_total ops RegisterSet_new) as [R HR].
    exists R. split; [done|]. apply Habsent.
    by apply (never_inserted_absent ops i RegisterSet_new R).
Qed.

(** ** The promoted-merged store *)










(** ** Further properties of the register file and of the all-seen set *)

Lemma insert_total (i : reg_t) (u : TrackedUses) (R : RegisterSet) :
  ∃ all, UsedSet_insert (m_all_uses R) (Some u) = Some all
         ∧ RegisterSet_insert i (Some u) R
           = Some {| m_all_uses := all; m_registers := <[ i := Some u ]> (m_registers R) |}
         ∧ UsedSet_contains all (Some u) = Some true.
Proof.
  destruct (UsedSet_insert_contains (m_all_uses R) u) as (all & Hins & Hin & _).
  exists all. unfold RegisterSet_insert. by rewrite Hins.
Qed.

(** X1: [insert] then [get]: the register reads back the inserted pointer and
    is not empty; every other register reads as before. *)
Theorem insert_get_round_trip (R : RegisterSet) (i : reg_t) (u : TrackedUses) :
  ∃ R', RegisterSet_insert i (Some u) R = Some R'
        ∧ RegisterSet_get i R' = Some u
        ∧ RegisterSet_is_empty i R' = false
        ∧ ∀ j, j ≠ i →
            RegisterSet_get j R' = RegisterSet_get j R
            ∧ RegisterSet_is_empty j R' = RegisterSet_is_empty j R.
Proof.
  destruct (insert_total i u R) as (all & _ & -> & _). eexists. split; [done|].
  unfold RegisterSet_get, RegisterSet_is_empty. simpl.
  rewrite lookup_insert_eq. split; [done|]. split; [done|].
  intros j Hne. by rewrite lookup_insert_ne.
Qed.

(** X2: [is_empty(i)] holds exactly when [get(i)] returns the null pointer. *)
Theorem is_empty_iff_get_null (R : RegisterSet) (i : reg_t) :
  RegisterSet_is_empty i R = true ↔ RegisterSet_get i R = None.
Proof.
  unfold RegisterSet_is_empty, RegisterSet_get.
  destruct (m_registers R !! i) as [[u|]|]; simpl; split; done.
Qed.

(** X3: [clear] never erases an entry of the register map, and clearing twice
    is clearing once. *)
Theorem clear_keeps_keys (R : RegisterSet) (i : reg_t) :
  dom (m_registers (RegisterSet_clear i R)) = dom (m_registers R)
  ∧ RegisterSet_clear i (RegisterSet_clear i R) = RegisterSet_clear i R.
Proof.
  unfold RegisterSet_clear. destruct (m_registers R !! i) as [v|] eqn:Hi; simpl.
  - rewrite lookup_insert_eq. simpl. rewrite insert_insert_eq. split; [|done].
    by apply dom_insert_lookup_L.
  - by rewrite Hi.
Qed.

Lemma run_ops_mono (ops : list RegOp) (R R' : RegisterSet) (y : shared_ptr) :
  run_ops ops R = Some R' →
  UsedSet_contains (m_all_uses R) y = Some true →
  UsedSet_contains (m_all_uses R') y = Some true.
Proof.
  revert R. induction ops as [|[i u|i] ops IH]; intros R; cbn [run_ops].
  - by intros [= <-].
  - destruct (insert_total i u R) as (all & Hins & -> & _). intros Hrun Hy.
    apply (IH _ Hrun). simpl. by eapply UsedSet_insert_mono.
  - intros Hrun Hy. apply (IH _ Hrun). by rewrite clear_all_uses.
Qed.

(** X4: Whatever is inserted stays in the all-seen set through every later
    [insert] and [clear], also of the same register. *)
Theorem inserted_values_stay_seen (ops : list RegOp) (R : RegisterSet)
    (i : reg_t) (u : TrackedUses) :
  OpInsert i u ∈ ops →
  ∃ R', run_ops ops R = Some R'
        ∧ UsedSet_contains (m_all_uses R') (Some u) = Some true.
Proof.
  intros Hin. destruct (run_ops_total ops R) as [R' Hrun]. exists R'. split; [done|].
  revert R Hrun. induction ops as [|op ops IH]; intros R; [by apply elem_of_nil in Hin|].
  apply elem_of_cons in Hin as [<-|Hin]; cbn [run_ops].
  - destruct (insert_total i u R) as (all & _ & -> & Hu). intros Hrun.
    by apply (run_ops_mono _ _ _ _ Hrun).
  - destruct op as [j v|j].
    + destruct (insert_total j v R) as (all & _ & -> & _). by apply IH.
    + by apply IH.
Qed.

Definition registers_seen (R : RegisterSet) : Prop :=
  ∀ i u, RegisterSet_get i R = Some u →
         UsedSet_contains (m_all_uses R) (Some u) = Some true.

Lemma registers_seen_run (ops : list RegOp) (R R' : RegisterSet) :
  registers_seen R → run_ops ops R = Some R' → registers_seen R'.
Proof.
  revert R. induction ops as [|[i u|i] ops IH]; intros R HR; cbn [run_ops].
  - by intros [= <-].
  - destruct (insert_total i u R) as (all & Hins & -> & Hu). apply IH.
    intros j v. unfold RegisterSet_get. simpl.
    destruct (decide (i = j)) as [->|Hne].
    + rewrite lookup_insert_eq. by intros [= <-].
    + rewrite lookup_insert_ne by done. intros Hj.
      eapply UsedSet_insert_mono; [done|]. by apply (HR j v).
  - apply IH. intros j v. unfold RegisterSet_get.
    rewrite clear_registers, clear_all_uses. case_decide as Hij.
    + subst j. by destruct (m_registers R !! i).
    + apply (HR j v).
Qed.

(** X5: From [RegisterSet()] on, every tracked value a register holds is in
    the all-seen set. *)
Theorem registers_within_all_uses (ops : list RegOp) :
  ∃ R, run_ops ops RegisterSet_new = Some R
       ∧ ∀ i u, RegisterSet_get i R = Some u →
                UsedSet_contains (m_all_uses R) (Some u) = Some true.
Proof.
  destruct (run_ops_total ops RegisterSet_new) as [R Hrun]. exists R. split; [done|].
  apply (registers_seen_run ops RegisterSet_new); [|done].
  intros i u. unfold RegisterSet_get, RegisterSet_new. simpl.
  by rewrite lookup_empty.
Qed.

Lemma existsb_pointwise {A} (f g : A → bool) (l : list A) :
  (∀ x, f x = g x) → existsb f l = existsb g l.
Proof. intros Hfg. induction l as [|x l IH]; simpl; [done|]. by rewrite Hfg, IH. Qed.

Lemma key_match_same_instr (h : size_t) (o : ObjectUses) (t : DexType)
    (f : FlowStatus) (y : shared_ptr) :
  key_match h (Some (ObjectUses_ (mkObjectUses (m_id o) t f))) y
  = key_match h (Some (ObjectUses_ o)) y.
Proof. unfold key_match. by destruct y as [[o'|m]|]. Qed.

(** X6: A second [ObjectUses] for an instruction that already has one in the
    all-seen set is put into its register but not into the set: the set
    keeps the first record, whatever type and flow the second one has. *)
Theorem insert_same_instruction_keeps_first (R : RegisterSet) (i j : reg_t)
    (o : ObjectUses) (t : DexType) (f : FlowStatus) :
  ∃ R1 R2,
    RegisterSet_insert i (Some (ObjectUses_ o)) R = Some R1
    ∧ RegisterSet_insert j (Some (ObjectUses_ (mkObjectUses (m_id o) t f))) R1 = Some R2
    ∧ m_all_uses R2 = m_all_uses R1
    ∧ RegisterSet_get j R2 = Some (ObjectUses_ (mkObjectUses (m_id o) t f)).
Proof.
  destruct (insert_total i (ObjectUses_ o) R) as (all & _ & -> & Hin).
  eexists _, _. split; [done|].
  unfold RegisterSet_insert, UsedSet_insert, UsedSet_contains, TrackedHasher in *.
  simpl in *. injection Hin as Hin.
  rewrite (existsb_pointwise _ _ _ (key_match_same_instr _ o t f)), Hin.
  split; [done|]. split; [done|].
  unfold RegisterSet_get. simpl. by rewrite lookup_insert_eq.
Qed.

(** No element is stored behind an earlier element that its own lookup
    would have found. *)
Definition distinct_keys (s : UsedSet) : Prop :=
  ∀ a b x y h, (a < b)%nat → s !! a = Some x → s !! b = Some y →
               TrackedHasher y = Some h → key_match h y x = false.

Lemma UsedSet_insert_distinct (s s' : UsedSet) (x : shared_ptr) :
  distinct_keys s → Forall is_Some s →
  UsedSet_insert s x = Some s' →
  distinct_keys s' ∧ Forall is_Some s'.
Proof.
  unfold UsedSet_insert. intros Hs Hnn.
  destruct (TrackedHasher x) as [h|] eqn:Hh; [|done].
  destruct (existsb (key_match h x) s) eqn:Hex; intros [= <-]; [done|].
  split.
  - intros a b x' y h' Hab Ha Hb Hy. unfold UsedSet in *.
    apply lookup_app_Some in Hb as [Hb|[Hlen Hb]].
    + rewrite lookup_app_l in Ha by (apply lookup_lt_Some in Hb; lia).
      by eapply Hs.
    + apply list_lookup_singleton_Some in Hb as [Hb0 <-].
      rewrite lookup_app_l in Ha by lia.
      assert (h' = h) as -> by congruence.
      destruct (key_match h x x') eqn:Hm; [|done].
      assert (existsb (key_match h x) s = true) as Hex'; [|congruence].
      apply existsb_exists. exists x'. split; [|done].
      apply list_elem_of_In. by eapply list_elem_of_lookup_2.
  - apply Forall_app. split; [done|]. apply Forall_singleton. by destruct x.
Qed.

(** X7: From [RegisterSet()] on the all-seen set is a set: no element is stored
    behind an earlier element that its own lookup would have found, and the
    null pointer is never stored. *)
Theorem all_uses_is_a_set (ops : list RegOp) :
  ∃ R, run_ops ops RegisterSet_new = Some R
       ∧ distinct_keys (m_all_uses R)
       ∧ Forall is_Some (m_all_uses R).
Proof.
  destruct (run_ops_total ops RegisterSet_new) as [R Hrun]. exists R. split; [done|].
  assert (∀ R0, distinct_keys (m_all_uses R0) ∧ Forall is_Some (m_all_uses R0) →
                run_ops ops R0 = Some R →
                distinct_keys (m_all_uses R) ∧ Forall is_Some (m_all_uses R)) as Hgen.
  { clear Hrun. induction ops as [|[i u|i] ops IH]; intros R0 HR0; cbn [run_ops].
    - by intros [= <-].
    - destruct (insert_total i u R0) as (all & Hins & -> & _). apply IH. simpl.
      destruct HR0 as [Hd Hn]. apply (UsedSet_insert_distinct _ _ _ Hd Hn Hins).
    - apply IH. by rewrite clear_all_uses. }
  apply (Hgen RegisterSet_new); [|done]. split; [|by constructor].
  intros a b x y h _ Ha. simpl in Ha. by destruct a.
Qed.

(** X8: The hasher agrees with the comparer on [ObjectUses]: objects that
    compare equal hash equal, as the container needs; on objects the
    comparer is symmetric and transitive; the null pointer equals only
    itself. *)
Theorem comparer_and_hasher_on_objects :
  (∀ a b, TrackedComparer (Some (ObjectUses_ a)) (Some (ObjectUses_ b)) = true →
          TrackedHasher (Some (ObjectUses_ a)) = TrackedHasher (Some (ObjectUses_ b)))
  ∧ (∀ a b, TrackedComparer (Some (ObjectUses_ a)) (Some (ObjectUses_ b))
            = TrackedComparer (Some (ObjectUses_ b)) (Some (ObjectUses_ a)))
  ∧ (∀ a b c, TrackedComparer (Some (ObjectUses_ a)) (Some (ObjectUses_ b)) = true →
              TrackedComparer (Some (ObjectUses_ b)) (Some (ObjectUses_ c)) = true →
              TrackedComparer (Some (ObjectUses_ a)) (Some (ObjectUses_ c)) = true)
  ∧ (∀ p, (TrackedComparer None p = true ↔ p = None)
          ∧ (TrackedComparer p None = true ↔ p = None)).
Proof.
  split_and!.
  - intros a b Hab%same_instr_spec. simpl. by rewrite Hab.
  - intros a b. simpl. unfold same_instr. apply Pos.eqb_sym.
  - intros a b c Hab%same_instr_spec Hbc%same_instr_spec. simpl.
    apply same_instr_spec. congruence.
  - intros [u|]; simpl; split; split; done.
Qed.

End Domain.

(** ** Concrete instances *)

Definition hash_id (i : IRInstruction) : size_t := Z.pos i.
Definition hash_size (m : MergedUses) : size_t :=
  Z.of_nat (size (m_instrs m)).

Definition obj1 : ObjectUses := ObjectUses_new 7%positive 1%positive.
Definition obj2 : ObjectUses := ObjectUses_new 8%positive 2%positive.

(** Register 3 holds [obj1]; after [clear(3)] it reads as bottom while the
    all-seen set still holds [obj1]. *)
Example insert_clear_run :
  (R ← RegisterSet_insert hash_id hash_size 3%N (Some (ObjectUses_ obj1)) RegisterSet_new;
   let R' := RegisterSet_clear 3%N R in
   Some (RegisterSet_get 3%N R', RegisterSet_is_empty 3%N R', m_all_uses R',
         m_registers R' !! 3%N))
  = Some (None, true, [Some (ObjectUses_ obj1)], Some None).
Proof. reflexivity. Qed.

(** A second object for the same instruction is found in the set under
    [obj1]'s key and is not stored again. *)
Example insert_equal_key :
  (R ← RegisterSet_insert hash_id hash_size 3%N (Some (ObjectUses_ obj1)) RegisterSet_new;
   R' ← RegisterSet_insert hash_id hash_size 4%N
          (Some (ObjectUses_ (mkObjectUses 1%positive 9%positive Conditional))) R;
   Some (m_all_uses R'))
  = Some [Some (ObjectUses_ obj1)].
Proof. reflexivity. Qed.

(** Inserting the null pointer hashes it, which dereferences it. *)
Example insert_null :
  RegisterSet_insert hash_id hash_size 3%N None RegisterSet_new = None.
Proof. reflexivity. Qed.

Example comparer_ignores_type_and_flow :
  TrackedComparer (Some (ObjectUses_ obj1))
                  (Some (ObjectUses_ (mkObjectUses 1%positive 9%positive Conditional))) = true
  ∧ TrackedComparer (Some (ObjectUses_ obj1)) (Some (ObjectUses_ obj2)) = false
  ∧ TrackedComparer (Some (MergedUses_ (MergedUses_new2 obj1 obj2)))
                    (Some (ObjectUses_ obj1)) = false
  ∧ TrackedComparer None None = true.
Proof. done. Qed.

Lemma inserted_values_stay_seen_witness :
  ∃ R', run_ops hash_id hash_size
          [OpInsert 3%N (ObjectUses_ obj1); OpClear 3%N;
           OpInsert 3%N (ObjectUses_ obj2)] RegisterSet_new = Some R'
        ∧ UsedSet_contains hash_id hash_size (m_all_uses R') (Some (ObjectUses_ obj1))
          = Some true.
Proof.
  apply (inserted_values_stay_seen hash_id hash_size _ RegisterSet_new 3%N).
  apply list_elem_of_here.
Defined.

(** [obj1] is overwritten in register 3 and still in the all-seen set. *)
Example overwrite_run :
  (R ← run_ops hash_id hash_size
         [OpInsert 3%N (ObjectUses_ obj1); OpInsert 3%N (ObjectUses_ obj2)]
         RegisterSet_new;
   Some (RegisterSet_get 3%N R, m_all_uses R))
  = Some (Some (ObjectUses_ obj2), [Some (ObjectUses_ obj1); Some (ObjectUses_ obj2)]).
Proof. reflexivity. Qed.

Lemma consistent_with_witness :
  (consistent_with implb (ObjectUses_ obj1) (ObjectUses_ obj1) = true)
  ∧ consistent_with implb (ObjectUses_ obj1) (MergedUses_ (MergedUses_new2 obj1 obj2)) = true
  ∧ consistent_with implb (MergedUses_ (MergedUses_new2 obj1 obj2)) (ObjectUses_ obj1) = false.
Proof.
  destruct (consistent_with_reflexive_not_symmetric implb) as [Hr Hm].
  split; [apply Hr|]. apply Hm. vm_compute. set_solver.
Defined.





(** Two paths that construct at the same instruction keep an object; paths
    that construct at two instructions give a merged value of two sites
    and two classes. *)
Example combine_paths_runs :
  combine_paths flow_join (ObjectUses_ obj1)
    (Some (ObjectUses_ (mkObjectUses 1%positive 7%positive Conditional)))
  = ObjectUses_ (mkObjectUses 1%positive 7%positive Conditional)
  ∧ combine_paths flow_join (ObjectUses_ obj1) (Some (ObjectUses_ obj2))
    = MergedUses_ (MergedUses_new2 obj1 obj2)
  ∧ size (m_instrs (MergedUses_new2 obj1 obj2)) = 2%nat
  ∧ size (m_classes (MergedUses_new2 obj1 obj2)) = 2%nat
  ∧ combine_paths flow_join (ObjectUses_ obj1) None
    = ObjectUses_ (mkObjectUses 1%positive 7%positive Conditional).
Proof. split_and!; try done; vm_compute; reflexivity. Qed.

End cic.

(** * The work queue *)

(** ** [workqueue_impl::create_permutation] *)
Module workqueue_impl.

Definition INT_MAX : Z := 2 ^ 31 - 1.
Definition UINT_MOD : Z := 2 ^ 32.
Definition SIZE_MOD : Z := 2 ^ 64.

(** Conversions of a [size_t] to [int] and to [unsigned int]. *)
Definition to_int (z : Z) : Z := (z + 2 ^ 31) `mod` UINT_MOD - 2 ^ 31.
Definition to_uint (z : Z) : Z := z `mod` UINT_MOD.

(** [std::iota(begin, end, 0)] over a vector of [num] elements. *)
Definition iota (num : nat) : list Z := Z.of_nat <$> seq 0 num.

(** [std::iter_swap] of the elements at two positions of a vector. *)
Definition swap {A} (i j : nat) (l : list A) : list A :=
  match l !! i, l !! j with
  | Some x, Some y => <[ j := x ]> (<[ i := y ]> l)
  | _, _ => l
  end.

(** [std::shuffle]: every position but the last is swapped with a position
    drawn at or after it.  [rnd p] is the variate the engine delivers for
    position [p]; the engine is seeded from the clock, so every stream of
    variates is possible. *)
Definition shuffle {A} (rnd : nat → nat) (l : list A) : list A :=
  foldl (λ acc p, swap p (p + rnd p `mod` (length l - p))%nat acc) l
        (seq 0 (length l - 1)).

(** [create_permutation(num, thread_idx)].  [None]: the vector cannot be
    built for a negative [num], and [std::find] returns [end()], which
    [iter_swap] must not be given, when no element equals [thread_idx].  The
    comparison [*it == thread_idx] converts the [int] to [unsigned int]. *)
Definition create_permutation (num thread_idx : Z) (rnd : nat → nat) : option (list Z) :=
  if decide (num < 0) then None
  else
    let attempts := shuffle rnd (iota (Z.to_nat num)) in
    match list_find (λ a, to_uint a = thread_idx) attempts with
    | Some (p, _) => Some (swap 0 p attempts)
    | None => None
    end.

Lemma swap_Permutation {A} (i j : nat) (l : list A) : swap i j l ≡ₚ l.
Proof.
  unfold swap. destruct (l !! i) eqn:Hi; [|done]. destruct (l !! j) eqn:Hj; [|done].
  by apply Permutation_insert_swap.
Qed.

Lemma shuffle_Permutation {A} (rnd : nat → nat) (l : list A) : shuffle rnd l ≡ₚ l.
Proof.
  unfold shuffle. generalize (length l) at 1 as n. intros n.
  generalize (seq 0 (length l - 1)) as ps. intros ps.
  assert (∀ acc, acc ≡ₚ l →
    foldl (λ acc p, swap p (p + rnd p `mod` (n - p))%nat acc) acc ps ≡ₚ l) as H.
  { induction ps as [|p ps IH]; intros acc Hacc; simpl; [done|].
    apply IH. by rewrite swap_Permutation. }
  by apply H.
Qed.

Lemma elem_of_iota (num : nat) (a : Z) : a ∈ iota num ↔ 0 ≤ a < Z.of_nat num.
Proof.
  unfold iota. rewrite list_elem_of_fmap. split.
  - intros (k & -> & Hk%elem_of_seq). lia.
  - intros Ha. exists (Z.to_nat a). split; [lia|]. apply elem_of_seq. lia.
Qed.

Lemma head_swap {A} (p : nat) (l : list A) (a : A) :
  l !! p = Some a → head (swap 0 p l) = Some a.
Proof.
  intros Hp. unfold swap. destruct l as [|x l]; [done|]. simpl. rewrite Hp.
  destruct p as [|p]; simpl in *; [congruence|done].
Qed.

(** What a successful call returns, whatever the arguments are. *)
Lemma create_permutation_Some (num thread_idx : Z) (rnd : nat → nat) (l : list Z) :
  create_permutation num thread_idx rnd = Some l →
  0 ≤ num ∧ l ≡ₚ iota (Z.to_nat num)
  ∧ ∃ a, head l = Some a ∧ to_uint a = thread_idx.
Proof.
  unfold create_permutation. case_decide; [done|].
  destruct (list_find _ _) as [[p a]|] eqn:Hfind; [|done].
  intros [= <-]. apply list_find_Some in Hfind as (Hp & Ha & _).
  split; [lia|]. split.
  - by rewrite swap_Permutation, shuffle_Permutation.
  - exists a. split; [|done]. by apply head_swap.
Qed.

Lemma to_uint_small (z : Z) : 0 ≤ z ≤ INT_MAX → to_uint z = z.
Proof. intros Hz. unfold to_uint, UINT_MOD. apply Z.mod_small. unfold INT_MAX in Hz. lia. Qed.

Lemma create_permutation_total (num thread_idx : Z) (rnd : nat → nat) :
  1 ≤ num ≤ INT_MAX → 0 ≤ thread_idx < num →
  ∃ l, create_permutation num thread_idx rnd = Some l
       ∧ l ≡ₚ iota (Z.to_nat num)
       ∧ head l = Some thread_idx.
Proof.
  intros Hnum Hidx.
  destruct (create_permutation num thread_idx rnd) as [l|] eqn:Hc.
  - destruct (create_permutation_Some _ _ _ _ Hc) as (_ & Hperm & a & Hhd & Ha).
    exists l. split; [done|]. split; [done|]. rewrite Hhd. f_equal.
    assert (a ∈ iota (Z.to_nat num)) as Hin.
    { rewrite <- Hperm. destruct l as [|a' l]; [done|].
      injection Hhd as ->. apply list_elem_of_here. }
    apply elem_of_iota in Hin. rewrite <- Ha. symmetry. apply to_uint_small. lia.
  - exfalso. unfold create_permutation in Hc. case_decide; [lia|].
    destruct (list_find _ _) as [[p a]|] eqn:Hfind; [done|].
    assert (is_Some (list_find (λ a, to_uint a = thread_idx)
                               (shuffle rnd (iota (Z.to_nat num))))) as [? Hs].
    { apply (list_find_elem_of _ _ thread_idx); [|apply to_uint_small; lia].
      rewrite shuffle_Permutation. apply elem_of_iota. lia. }
    congruence.
Qed.

(** C7: for [1 ≤ num] (an [int]) and [thread_idx < num] the call returns a
    permutation of [0 .. num-1] whose first element is [thread_idx],
    whatever the random engine delivers. *)
Theorem create_permutation_correct (num thread_idx : Z) (rnd : nat → nat) :
  1 ≤ num ≤ INT_MAX → 0 ≤ thread_idx < num →
  ∃ l, create_permutation num thread_idx rnd = Some l
       ∧ l ≡ₚ iota (Z.to_nat num)
       ∧ head l = Some thread_idx.
Proof. apply create_permutation_total. Qed.

Lemma create_permutation_witness :
  ∃ l, create_permutation 4 2 (λ p, (3 * p + 1)%nat) = Some l
       ∧ l ≡ₚ iota (Z.to_nat 4)
       ∧ head l = Some 2.
Proof.
  apply (create_permutation_correct 4 2 (λ p, (3 * p + 1)%nat));
    unfold INT_MAX; lia.
Defined.

Example create_permutation_run :
  create_permutation 4 2 (λ p, (3 * p + 1)%nat) = Some [2; 1; 3; 0].
Proof. vm_compute. reflexivity. Qed.

(** X9: [create_permutation] is defined exactly
    when [thread_idx] is one of the indices [0 .. num-1]; otherwise
    [std::find] returns [end()] and [iter_swap] is handed a past-the-end
    iterator.  A negative [num] never gives a vector. *)
Theorem create_permutation_defined (num thread_idx : Z) (rnd : nat → nat) :
  (num < 0 → create_permutation num thread_idx rnd = None)
  ∧ (0 ≤ num ≤ INT_MAX → 0 ≤ thread_idx < UINT_MOD →
     (is_Some (create_permutation num thread_idx rnd) ↔ thread_idx < num)).
Proof.
  split.
  - intros Hneg. unfold create_permutation. by rewrite decide_True.
  - intros Hnum Hidx. split.
    + intros [l Hl]. apply create_permutation_Some in Hl as (_ & Hperm & a & Hhd & Ha).
      assert (a ∈ iota (Z.to_nat num)) as Hin.
      { rewrite <- Hperm. destruct l as [|a' l]; [done|].
        injection Hhd as ->. apply list_elem_of_here. }
      apply elem_of_iota in Hin. rewrite to_uint_small in Ha by lia. lia.
    + intros Hlt.
      destruct (create_permutation_total num thread_idx rnd) as (l & -> & _); [lia..|done].
Qed.

Lemma create_permutation_defined_witness :
  create_permutation (-1) 0 (λ p, p) = None
  ∧ (is_Some (create_permutation 3 2 (λ p, p)) ↔ 2 < 3)
  ∧ (is_Some (create_permutation 3 3 (λ p, p)) ↔ 3 < 3).
Proof.
  split; [apply (create_permutation_defined (-1) 0 (λ p, p)); lia|].
  split; apply create_permutation_defined; unfold INT_MAX, UINT_MOD; lia.
Defined.

Example create_permutation_out_of_range :
  create_permutation 3 3 (λ p, p) = None ∧ create_permutation 0 0 (λ p, p) = None.
Proof. split; vm_compute; reflexivity. Qed.

End workqueue_impl.

(** ** [WorkerState] and [WorkQueue] *)
Module work_queue.
Import workqueue_impl.

Section WorkQueue.

Variables Input Data Output : Type.

(** [Output()], the value a fresh [m_result] holds. *)
Variable Output_default : Output.

Record WorkerState := mkWorkerState {
  m_id : Z;
  m_queue : list Input;
  m_data : Data;
  m_result : Output
}.

(** [WorkerState(id, initial)] *)
Definition WorkerState_new (id : Z) (initial : Data) : WorkerState :=
  {| m_id := id; m_queue := []; m_data := initial; m_result := Output_default |}.

(** [m_queue.push(task)], as [push_task] and [add_item] do. *)
Definition push (task : Input) (ws : WorkerState) : WorkerState :=
  {| m_id := m_id ws; m_queue := m_queue ws ++ [task];
     m_data := m_data ws; m_result := m_result ws |}.

(** [pop_task()] *)
Definition pop_task (ws : WorkerState) : option (Input * WorkerState) :=
  match m_queue ws with
  | task :: rest =>
      Some (task, {| m_id := m_id ws; m_queue := rest;
                     m_data := m_data ws; m_result := m_result ws |})
  | [] => None
  end.

(** A mapper is handed the worker state: it reads [worker_id()], reads and
    writes the worker's data through [get_data()] and returns an output.
    Mappers that call [push_task] are not covered by this development. *)
Definition Mapper := Z → Data → Input → Output * Data.

Record WorkQueue := mkWorkQueue {
  m_mapper : Mapper;
  m_reducer : Output → Output → Output;
  m_states : list WorkerState;
  m_num_threads : Z;
  m_insert_idx : Z
}.

(** The constructor.  [None]: [always_assert(num_threads >= 1)] fires.  The
    second component lists the arguments of the calls of
    [data_initializer], in the order they are made. *)
Definition WorkQueue_new (mapper : Mapper) (reducer : Output → Output → Output)
    (data_initializer : Z → Data) (num_threads : Z)
  : option (WorkQueue * list Z) :=
  if decide (num_threads >= 1) then
    let '(states, calls) :=
      foldl (λ '(states, calls) i,
               (states ++ [WorkerState_new i (data_initializer i)], calls ++ [i]))
            ([], []) (iota (Z.to_nat num_threads)) in
    Some ({| m_mapper := mapper; m_reducer := reducer; m_states := states;
             m_num_threads := num_threads; m_insert_idx := 0 |}, calls)
  else None.

(** [add_item(task)].  [None]: the remainder by zero threads, or an index
    outside [m_states]. *)
Definition add_item (task : Input) (q : WorkQueue) : option WorkQueue :=
  if decide (m_num_threads q = 0) then None
  else
    let idx := ((m_insert_idx q + 1) `mod` SIZE_MOD) `mod` m_num_threads q in
    match m_states q !! Z.to_nat idx with
    | Some ws =>
        Some {| m_mapper := m_mapper q; m_reducer := m_reducer q;
                m_states := <[ Z.to_nat idx := push task ws ]> (m_states q);
                m_num_threads := m_num_threads q; m_insert_idx := idx |}
    | None => None
    end.

(** A sequence of [add_item] calls. *)
Fixpoint add_items (tasks : list Input) (q : WorkQueue) : option WorkQueue :=
  match tasks with
  | [] => Some q
  | task :: tasks' =>
      match add_item task q with
      | Some q' => add_items tasks' q'
      | None => None
      end
  end.

(** [consume(state, task)]: the new worker state and the mapper's output. *)
Definition consume (q : WorkQueue) (state : WorkerState) (task : Input)
  : WorkerState * Output :=
  let '(out, data) := m_mapper q (m_id state) (m_data state) task in
  ({| m_id := m_id state; m_queue := m_queue state; m_data := data;
      m_result := m_reducer q (m_result state) out |}, out).

(** *** [run_all]

    The worker threads are interleaved by a schedule, the list of the
    threads that take the successive steps.  A step of worker [i] is one of:
    its start ([m_result = init_output] and the permutation, which touch
    nothing another thread reads); one [pop_task] on the next queue of its
    walk, which runs under that queue's lock; the [consume] of the task it
    has popped, which runs after the lock was released and touches the
    worker's own state only, so that other workers may take steps between
    the pop and the consume; or its return after a walk that found no
    task.  Every consumption is recorded in a trace. *)
Inductive Pc :=
| Spawned
| Walking (attempts rest : list Z)
| Holding (attempts : list Z) (task : Input)
| Exited.

Record Event := mkEvent {
  ev_worker : nat;
  ev_task : Input;
  ev_output : Output
}.

Record RunState := mkRunState {
  rs_states : list WorkerState;
  rs_pcs : list Pc;
  rs_trace : list Event
}.

Definition set_result (r : Output) (ws : WorkerState) : WorkerState :=
  {| m_id := m_id ws; m_queue := m_queue ws; m_data := m_data ws; m_result := r |}.

Definition set_pc (i : nat) (pc : Pc) (st : RunState) : RunState :=
  {| rs_states := rs_states st; rs_pcs := <[ i := pc ]> (rs_pcs st);
     rs_trace := rs_trace st |}.

Section Run.

Variable q : WorkQueue.
Variable init_output : Output.
(** [rnd i] is the stream of variates of the engine of worker [i]. *)
Variable rnd : nat → nat → nat.

(** One step of worker [i]; [None] when the worker has returned, does not
    exist, or its next operation is undefined. *)
Definition thread_step (i : nat) (st : RunState) : option RunState :=
  match rs_pcs st !! i with
  | Some Spawned =>
      state ← rs_states st !! i;
      attempts ← create_permutation (to_int (m_num_threads q))
                                    (to_uint (Z.of_nat i)) (rnd i);
      Some {| rs_states := <[ i := set_result init_output state ]> (rs_states st);
              rs_pcs := <[ i := Walking attempts attempts ]> (rs_pcs st);
              rs_trace := rs_trace st |}
  | Some (Walking attempts []) => Some (set_pc i Exited st)
  | Some (Walking attempts (idx :: rest)) =>
      if decide (idx < 0) then None
      else
        other_state ← rs_states st !! Z.to_nat idx;
        match pop_task other_state with
        | None => Some (set_pc i (Walking attempts rest) st)
        | Some (task, other_state') =>
            Some {| rs_states := <[ Z.to_nat idx := other_state' ]> (rs_states st);
                    rs_pcs := <[ i := Holding attempts task ]> (rs_pcs st);
                    rs_trace := rs_trace st |}
        end
  | Some (Holding attempts task) =>
      state ← rs_states st !! i;
      let '(state', out) := consume q state task in
      Some {| rs_states := <[ i := state' ]> (rs_states st);
              rs_pcs := <[ i := Walking attempts attempts ]> (rs_pcs st);
              rs_trace := rs_trace st ++ [mkEvent i task out] |}
  | Some Exited | None => None
  end.

(** The threads run along a schedule; an entry that names a thread with no
    step to take is skipped. *)
Definition run_threads (sched : list nat) (st : RunState) : RunState :=
  foldl (λ st i, default st (thread_step i st)) st sched.

Definition is_exited (pc : Pc) : bool :=
  match pc with Exited => true | _ => false end.

Definition spawn : RunState :=
  {| rs_states := m_states q;
     rs_pcs := replicate (Z.to_nat (m_num_threads q)) Spawned;
     rs_trace := [] |}.

(** The reduction over the worker states after the joins. *)
Definition join_results (states : list WorkerState) : Output :=
  foldl (λ result thread_state, m_reducer q result (m_result thread_state))
        init_output states.

(** [run_all(init_output)] under a schedule; [None] while a thread has not
    returned at the end of the schedule. *)
Definition run_all (sched : list nat) : option Output :=
  let st := run_threads sched spawn in
  if forallb is_exited (rs_pcs st) then Some (join_results (rs_states st))
  else None.

End Run.

(** *** Well-formed queues and the round-robin distribution *)

Definition wf_queue (q : WorkQueue) : Prop :=
  1 ≤ m_num_threads q < UINT_MOD
  ∧ length (m_states q) = Z.to_nat (m_num_threads q)
  ∧ 0 ≤ m_insert_idx q < m_num_threads q.

(** After [k] submissions worker 0 holds [k / n] tasks and the workers
    [1 .. k mod n] hold one more. *)
Definition round_robin (k : Z) (q : WorkQueue) : Prop :=
  m_insert_idx q = k `mod` m_num_threads q
  ∧ ∀ j ws, m_states q !! j = Some ws →
      Z.of_nat (length (m_queue ws))
      = k `div` m_num_threads q
        + (if decide (1 ≤ Z.of_nat j ≤ k `mod` m_num_threads q) then 1 else 0).

(** *** Construction *)

Lemma init_loop (data_initializer : Z → Data) (l : list Z)
    (states : list WorkerState) (calls : list Z) :
  foldl (λ '(states, calls) i,
           (states ++ [WorkerState_new i (data_initializer i)], calls ++ [i]))
        (states, calls) l
  = (states ++ ((λ i, WorkerState_new i (data_initializer i)) <$> l), calls ++ l).
Proof.
  revert states calls. induction l as [|i l IH]; intros states calls; simpl.
  - by rewrite !app_nil_r.
  - rewrite IH. by rewrite <- !app_assoc.
Qed.

Lemma iota_lookup (n : nat) (i : Z) :
  0 ≤ i < Z.of_nat n → iota n !! Z.to_nat i = Some i.
Proof.
  intros Hi. unfold iota. rewrite list_lookup_fmap, lookup_seq_lt by lia.
  simpl. f_equal. lia.
Qed.

Lemma length_iota (n : nat) : length (iota n) = n.
Proof. unfold iota. by rewrite length_fmap, length_seq. Qed.

Lemma NoDup_iota (n : nat) : NoDup (iota n).
Proof. unfold iota. apply NoDup_fmap; [apply _|apply NoDup_seq]. Qed.

(** C8: with fewer than one thread the constructor's assertion fires; with
    [num_threads ≥ 1] it returns a queue of exactly [num_threads] worker
    states, the one at index [i] built from [data_initializer(i)], and the
    initializer was called once for each index [0 .. num_threads-1]. *)
Theorem WorkQueue_new_spec (mapper : Mapper) (reducer : Output → Output → Output)
    (data_initializer : Z → Data) :
  (∀ num_threads, num_threads < 1 →
     WorkQueue_new mapper reducer data_initializer num_threads = None)
  ∧ (∀ num_threads, 1 ≤ num_threads →
       ∃ q calls,
         WorkQueue_new mapper reducer data_initializer num_threads = Some (q, calls)
         ∧ length (m_states q) = Z.to_nat num_threads
         ∧ (∀ i, 0 ≤ i < num_threads →
              m_states q !! Z.to_nat i = Some (WorkerState_new i (data_initializer i)))
         ∧ calls = iota (Z.to_nat num_threads)
         ∧ NoDup calls
         ∧ m_num_threads q = num_threads ∧ m_insert_idx q = 0).
Proof.
  split; intros n Hn; unfold WorkQueue_new.
  - by rewrite decide_False by lia.
  - rewrite decide_True by lia. rewrite init_loop. simpl.
    eexists _, _. split; [done|]. simpl.
    split; [by rewrite length_fmap, length_iota|].
    split; [|by auto using NoDup_iota].
    intros i Hi. rewrite list_lookup_fmap. by rewrite iota_lookup by lia.
Qed.

(** *** Submission before the run *)

Lemma succ_div_mod (k n : Z) :
  0 ≤ k → 0 < n →
  (k `mod` n + 1 < n ∧ (k + 1) `mod` n = k `mod` n + 1 ∧ (k + 1) `div` n = k `div` n)
  ∨ (k `mod` n + 1 = n ∧ (k + 1) `mod` n = 0 ∧ (k + 1) `div` n = k `div` n + 1).
Proof.
  intros Hk Hn.
  pose proof (Z.div_mod k n ltac:(lia)) as Hdm.
  pose proof (Z.mod_pos_bound k n Hn) as Hr.
  destruct (decide (k `mod` n + 1 < n)) as [Hlt|Hge]; [left|right].
  - split; [done|].
    destruct (Z.div_mod_unique n ((k + 1) `div` n) (k `div` n)
                ((k + 1) `mod` n) (k `mod` n + 1)) as [-> ->]; try done.
    + left. by apply Z.mod_pos_bound.
    + left. lia.
    + rewrite <- Z.div_mod by lia. lia.
  - split; [lia|].
    destruct (Z.div_mod_unique n ((k + 1) `div` n) (k `div` n + 1)
                ((k + 1) `mod` n) 0) as [-> ->]; try done.
    + left. by apply Z.mod_pos_bound.
    + left. lia.
    + rewrite <- Z.div_mod by lia. lia.
Qed.

Lemma wf_queue_new (mapper : Mapper) (reducer : Output → Output → Output)
    (data_initializer : Z → Data) (n : Z) :
  1 ≤ n < UINT_MOD →
  ∃ q calls, WorkQueue_new mapper reducer data_initializer n = Some (q, calls)
    ∧ wf_queue q ∧ round_robin 0 q ∧ m_num_threads q = n
    ∧ m_mapper q = mapper ∧ m_reducer q = reducer
    ∧ m_states q = (λ i, WorkerState_new i (data_initializer i)) <$> iota (Z.to_nat n).
Proof.
  intros Hn. unfold WorkQueue_new. rewrite decide_True by lia. rewrite init_loop.
  simpl. eexists _, _. split; [done|]. unfold wf_queue, round_robin. simpl.
  rewrite length_fmap, length_iota, Z.mod_0_l, Z.div_0_l by lia.
  repeat split; try done; try lia.
  intros j ws Hj. apply list_lookup_fmap_Some in Hj as (i & -> & Hi).
  simpl. rewrite decide_False by lia. done.
Qed.

(** One submission: the insertion index advances by one modulo the number
    of workers and the task is appended to the queue of that worker only. *)
Lemma add_item_round_robin (task : Input) (q : WorkQueue) (k : Z) :
  0 ≤ k → wf_queue q → round_robin k q →
  ∃ q' ws,
    add_item task q = Some q'
    ∧ m_insert_idx q' = (m_insert_idx q + 1) `mod` m_num_threads q
    ∧ m_states q !! Z.to_nat (m_insert_idx q') = Some ws
    ∧ m_states q' = <[ Z.to_nat (m_insert_idx q') := push task ws ]> (m_states q)
    ∧ m_num_threads q' = m_num_threads q
    ∧ m_mapper q' = m_mapper q ∧ m_reducer q' = m_reducer q
    ∧ wf_queue q' ∧ round_robin (k + 1) q'.
Proof.
  intros Hk (Hn & Hlen & Hidx) (Hrr & Hcnt). unfold add_item.
  rewrite decide_False by lia.
  assert ((m_insert_idx q + 1) `mod` SIZE_MOD = m_insert_idx q + 1) as ->.
  { apply Z.mod_small. unfold SIZE_MOD, UINT_MOD in *. lia. }
  set (idx := (m_insert_idx q + 1) `mod` m_num_threads q).
  assert (0 ≤ idx < m_num_threads q) as Hi by (apply Z.mod_pos_bound; lia).
  destruct (lookup_lt_is_Some_2 (m_states q) (Z.to_nat idx)) as [ws Hws]; [lia|].
  rewrite Hws. eexists _, ws. split; [done|]. unfold wf_queue, round_robin. simpl.
  repeat split; try done; try lia.
  { by rewrite length_insert. }
  { unfold idx. rewrite Hrr. rewrite Z.add_mod_idemp_l by lia. done. }
  intros j ws' Hj.
  assert (Z.of_nat j < m_num_threads q) as Hjn.
  { apply lookup_lt_Some in Hj. rewrite length_insert in Hj. lia. }
  assert (idx = (k + 1) `mod` m_num_threads q) as Hidx'.
  { unfold idx. rewrite Hrr. rewrite Z.add_mod_idemp_l by lia. done. }
  destruct (decide (j = Z.to_nat idx)) as [->|Hne].
  - rewrite list_lookup_insert_eq in Hj by (by eapply lookup_lt_Some).
    injection Hj as <-. simpl. rewrite length_app. simpl.
    specialize (Hcnt _ _ Hws).
    destruct (succ_div_mod k (m_num_threads q)) as [(? & ? & ->)|(? & ? & ->)];
      [lia|lia|..]; repeat case_decide; lia.
  - rewrite list_lookup_insert_ne in Hj by done.
    specialize (Hcnt _ _ Hj).
    destruct (succ_div_mod k (m_num_threads q)) as [(? & ? & ->)|(? & ? & ->)];
      [lia|lia|..]; repeat case_decide; lia.
Qed.

Lemma add_items_round_robin (tasks : list Input) (q : WorkQueue) (k : Z) :
  0 ≤ k → wf_queue q → round_robin k q →
  ∃ q', add_items tasks q = Some q'
        ∧ m_num_threads q' = m_num_threads q
        ∧ m_mapper q' = m_mapper q ∧ m_reducer q' = m_reducer q
        ∧ wf_queue q' ∧ round_robin (k + Z.of_nat (length tasks)) q'.
Proof.
  revert q k. induction tasks as [|task tasks IH]; intros q k Hk Hwf Hrr; simpl.
  - exists q. rewrite Z.add_0_r. done.
  - destruct (add_item_round_robin task q k Hk Hwf Hrr)
      as (q1 & ws & -> & _ & _ & _ & Hn1 & Hm1 & Hr1 & Hwf1 & Hrr1).
    destruct (IH q1 (k + 1) ltac:(lia) Hwf1 Hrr1) as (q' & -> & Hn' & Hm' & Hr' & Hwf' & Hrr').
    exists q'. rewrite Hn', Hm', Hr'.
    replace (k + Z.of_nat (S (length tasks)))
      with (k + 1 + Z.of_nat (length tasks)) by lia.
    by split_and!.
Qed.

Lemma round_robin_bound (k : Z) (q : WorkQueue) (j : nat) (ws : WorkerState) :
  0 ≤ k → wf_queue q → round_robin k q →
  m_states q !! j = Some ws →
  Z.of_nat (length (m_queue ws)) ≤ (k + m_num_threads q - 1) `div` m_num_threads q.
Proof.
  intros Hk (Hn & _ & _) (_ & Hcnt) Hj. rewrite (Hcnt _ _ Hj).
  pose proof (Z.div_mod k (m_num_threads q) ltac:(lia)) as Hdm.
  pose proof (Z.mod_pos_bound k (m_num_threads q) ltac:(lia)) as Hr.
  case_decide.
  - apply Z.div_le_lower_bound; lia.
  - apply Z.div_le_lower_bound; lia.
Qed.

(** *** The queue of one worker is first-in first-out *)

(** [push_task] for each task of a list, and [k] calls of [pop_task]
    (stopping at the first that finds the queue empty). *)
Definition push_tasks (tasks : list Input) (ws : WorkerState) : WorkerState :=
  foldl (λ w task, push task w) ws tasks.

Fixpoint pop_tasks (k : nat) (ws : WorkerState) : list Input * WorkerState :=
  match k with
  | O => ([], ws)
  | S k' =>
      match pop_task ws with
      | Some (task, ws') => let '(popped, w) := pop_tasks k' ws' in (task :: popped, w)
      | None => ([], ws)
      end
  end.

Lemma push_tasks_queue (tasks : list Input) (ws : WorkerState) :
  m_queue (push_tasks tasks ws) = m_queue ws ++ tasks
  ∧ m_id (push_tasks tasks ws) = m_id ws
  ∧ m_data (push_tasks tasks ws) = m_data ws
  ∧ m_result (push_tasks tasks ws) = m_result ws.
Proof.
  unfold push_tasks. revert ws. induction tasks as [|task tasks IH]; intros ws; simpl.
  - by rewrite app_nil_r.
  - destruct (IH (push task ws)) as (-> & -> & -> & ->). simpl.
    by rewrite <- app_assoc.
Qed.

Lemma pop_tasks_take (k : nat) (ws : WorkerState) :
  ∃ ws', pop_tasks k ws = (take k (m_queue ws), ws')
         ∧ m_queue ws' = drop k (m_queue ws)
         ∧ m_id ws' = m_id ws ∧ m_data ws' = m_data ws ∧ m_result ws' = m_result ws.
Proof.
  revert ws. induction k as [|k IH]; intros ws; simpl.
  { exists ws. by rewrite take_0, drop_0. }
  unfold pop_task. destruct (m_queue ws) as [|task rest] eqn:Hq.
  { exists ws. by rewrite Hq. }
  destruct (IH {| m_id := m_id ws; m_queue := rest;
                  m_data := m_data ws; m_result := m_result ws |})
    as (ws' & -> & Hq' & Hid & Hd & Hr).
  exists ws'. by simpl in *.
Qed.

(** X10: Pushed tasks are popped in the order they were pushed, behind what the
    queue held before; [k] pops deliver the first [k] of them, and a pop
    past the end delivers nothing.  Data and result of the worker are not
    touched. *)
Theorem push_pop_fifo (tasks : list Input) (ws : WorkerState) (k : nat) :
  ∃ ws', pop_tasks k (push_tasks tasks ws) = (take k (m_queue ws ++ tasks), ws')
         ∧ m_queue ws' = drop k (m_queue ws ++ tasks)
         ∧ (length (m_queue ws ++ tasks) ≤ k → pop_task ws' = None)%nat
         ∧ m_data ws' = m_data ws ∧ m_result ws' = m_result ws.
Proof.
  destruct (push_tasks_queue tasks ws) as (Hq & _ & Hd & Hr).
  destruct (pop_tasks_take k (push_tasks tasks ws)) as (ws' & Hpop & Hq' & _ & Hd' & Hr').
  rewrite Hq in Hpop, Hq'. exists ws'. split_and!; try done; try congruence.
  intros Hk. unfold pop_task. by rewrite Hq', drop_ge.
Qed.

(** *** Which submissions a worker's queue holds *)

(** The tasks, of those submitted after the first [k], that go to worker
    [j]: the submission with number [t] (counted from 1) goes to worker
    [t mod n]. *)
Fixpoint dealt (n : Z) (j : nat) (k : Z) (tasks : list Input) : list Input :=
  match tasks with
  | [] => []
  | task :: tasks' =>
      if decide ((k + 1) `mod` n = Z.of_nat j) then task :: dealt n j (k + 1) tasks'
      else dealt n j (k + 1) tasks'
  end.

Lemma add_items_dealt (tasks : list Input) (q : WorkQueue) (k : Z) :
  0 ≤ k → wf_queue q → round_robin k q →
  ∃ q', add_items tasks q = Some q'
        ∧ ∀ j ws', m_states q' !! j = Some ws' →
            ∃ ws, m_states q !! j = Some ws
                  ∧ m_queue ws' = m_queue ws ++ dealt (m_num_threads q) j k tasks.
Proof.
  revert q k. induction tasks as [|task tasks IH]; intros q k Hk Hwf Hrr; simpl.
  { exists q. split; [done|]. intros j ws' Hj. exists ws'. by rewrite app_nil_r. }
  destruct (add_item_round_robin task q k Hk Hwf Hrr)
    as (q1 & ws0 & -> & Hidx & Hws0 & Hst1 & Hn1 & _ & _ & Hwf1 & Hrr1).
  destruct (IH q1 (k + 1) ltac:(lia) Hwf1 Hrr1) as (q' & -> & Hq').
  exists q'. split; [done|]. intros j ws' Hj.
  destruct (Hq' _ _ Hj) as (ws1 & Hws1 & ->). rewrite Hn1.
  assert (m_insert_idx q1 = (k + 1) `mod` m_num_threads q) as Hidx'.
  { rewrite Hidx, (proj1 Hrr). apply Z.add_mod_idemp_l. destruct Hwf. lia. }
  assert (0 ≤ m_insert_idx q1) as Hpos by (destruct Hwf1 as (? & _ & ?); lia).
  rewrite Hst1 in Hws1.
  apply list_lookup_insert_Some in Hws1 as [(Hj0 & <- & _)|(Hne & Hws1)].
  - exists ws0. subst j. split; [done|]. simpl.
    rewrite decide_True by lia. by rewrite <- app_assoc.
  - exists ws1. split; [done|]. rewrite decide_False; [done|]. lia.
Qed.

(** Where the elements of [dealt] sit in the list of submissions. *)
Lemma dealt_lookup (n : Z) (j : nat) (k : Z) (tasks : list Input) (p : nat) :
  0 < n → Z.of_nat j < n →
  dealt n j k tasks !! p
  = tasks !! Z.to_nat ((Z.of_nat j - (k + 1)) `mod` n + Z.of_nat p * n).
Proof.
  intros Hn Hj. revert k p. induction tasks as [|task tasks IH]; intros k p; simpl.
  { by rewrite !lookup_nil. }
  pose proof (Z.mod_pos_bound (Z.of_nat j - (k + 1)) n Hn) as Hd.
  assert ((Z.of_nat j - (k + 1 + 1)) `mod` n
          = ((Z.of_nat j - (k + 1)) `mod` n - 1) `mod` n) as Hnext.
  { rewrite Zminus_mod_idemp_l. f_equal. lia. }
  case_decide as Hhere.
  - assert ((Z.of_nat j - (k + 1)) `mod` n = 0) as Hd0.
    { rewrite <- Hhere, Zminus_mod_idemp_l, Z.sub_diag. by apply Z.mod_0_l, Z.neq_sym, Z.lt_neq. }
    rewrite Hd0 in *. destruct p as [|p]; simpl; [done|].
    rewrite IH, Hnext.
    replace ((0 - 1) `mod` n) with (n - 1).
    2:{ apply (Z.mod_unique_pos _ _ (-1)); lia. }
    replace (Z.to_nat (0 + Z.of_nat (S p) * n))
      with (S (Z.to_nat (n - 1 + Z.of_nat p * n))) by nia.
    done.
  - assert ((Z.of_nat j - (k + 1)) `mod` n ≠ 0) as Hd0.
    { intros Hd0. apply Hhere.
      apply Z.mod_divide in Hd0 as [c Hc]; [|lia].
      replace (k + 1) with (Z.of_nat j + (- c) * n) by lia.
      rewrite Z.mod_add by lia. apply Z.mod_small. lia. }
    rewrite IH, Hnext. rewrite (Z.mod_small (_ - 1)) by lia.
    replace (Z.to_nat ((Z.of_nat j - (k + 1)) `mod` n + Z.of_nat p * n))
      with (S (Z.to_nat ((Z.of_nat j - (k + 1)) `mod` n - 1 + Z.of_nat p * n))) by nia.
    done.
Qed.

(** C6: [k] submissions to a fresh queue of [n] workers succeed and are
    dealt round-robin.  The submission number [t] (counted from 0) sits at
    position [t / n] of the queue of worker [(t + 1) mod n]; every queue
    holds exactly the submissions dealt to it, in submission order; worker 0
    holds [k / n] tasks and the workers [1 .. k mod n] one more, so that no
    worker holds more than [ceil(k / n)].  The insertion index is then
    [k mod n], and the next submission is appended to the queue of the
    worker with the next index modulo [n] and changes no other worker. *)
Theorem add_item_distributes_round_robin (mapper : Mapper)
    (reducer : Output → Output → Output) (data_initializer : Z → Data)
    (n : Z) (tasks : list Input) :
  1 ≤ n < UINT_MOD →
  ∃ q0 calls q,
    WorkQueue_new mapper reducer data_initializer n = Some (q0, calls)
    ∧ add_items tasks q0 = Some q
    ∧ m_insert_idx q = Z.of_nat (length tasks) `mod` n
    ∧ (∀ t task, tasks !! t = Some task →
         ∃ ws, m_states q !! Z.to_nat ((Z.of_nat t + 1) `mod` n) = Some ws
               ∧ m_queue ws !! (t / Z.to_nat n)%nat = Some task)
    ∧ (∀ j ws, m_states q !! j = Some ws →
         (∀ p, m_queue ws !! p
               = tasks !! Z.to_nat ((Z.of_nat j - 1) `mod` n + Z.of_nat p * n))
         ∧ Z.of_nat (length (m_queue ws))
           = Z.of_nat (length tasks) `div` n
             + (if decide (1 ≤ Z.of_nat j ≤ Z.of_nat (length tasks) `mod` n)
                then 1 else 0)
         ∧ Z.of_nat (length (m_queue ws)) ≤ (Z.of_nat (length tasks) + n - 1) `div` n)
    ∧ (∀ task, ∃ q' ws ws',
         add_item task q = Some q'
         ∧ m_insert_idx q' = (Z.of_nat (length tasks) + 1) `mod` n
         ∧ m_states q !! Z.to_nat (m_insert_idx q') = Some ws
         ∧ m_states q' = <[ Z.to_nat (m_insert_idx q') := push task ws ]> (m_states q)
         ∧ m_states q' !! Z.to_nat (m_insert_idx q') = Some ws'
         ∧ m_queue ws' = m_queue ws ++ [task]
         ∧ m_id ws' = m_id ws ∧ m_data ws' = m_data ws ∧ m_result ws' = m_result ws
         ∧ ∀ j, j ≠ Z.to_nat (m_insert_idx q') → m_states q' !! j = m_states q !! j).
Proof.
  intros Hn.
  destruct (wf_queue_new mapper reducer data_initializer n Hn)
    as (q0 & calls & Hnew & Hwf0 & Hrr0 & Hn0 & _ & _ & Hst0).
  destruct (add_items_round_robin tasks q0 0 ltac:(lia) Hwf0 Hrr0)
    as (q & Hadd & Hnq & _ & _ & Hwf & Hrr).
  destruct (add_items_dealt tasks q0 0 ltac:(lia) Hwf0 Hrr0) as (q' & Hadd' & Hq).
  rewrite Hadd in Hadd'. injection Hadd' as <-.
  rewrite Z.add_0_l in Hrr. rewrite Hn0 in Hnq.
  assert (∀ j ws p, m_states q !! j = Some ws →
            m_queue ws !! p
            = tasks !! Z.to_nat ((Z.of_nat j - 1) `mod` n + Z.of_nat p * n)) as Hpos.
  { intros j ws p Hj. destruct (Hq _ _ Hj) as (ws0 & Hws0 & ->).
    rewrite Hst0 in Hws0. apply list_lookup_fmap_Some in Hws0 as (i & -> & Hi).
    simpl. rewrite Hn0. apply lookup_lt_Some in Hi. rewrite length_iota in Hi.
    rewrite dealt_lookup by lia. done. }
  exists q0, calls, q. split; [done|]. split; [done|].
  split; [by rewrite (proj1 Hrr), Hnq|]. split; [|split].
  - intros t task Ht.
    pose proof (Z.mod_pos_bound (Z.of_nat t + 1) n ltac:(lia)) as Hj.
    destruct (lookup_lt_is_Some_2 (m_states q) (Z.to_nat ((Z.of_nat t + 1) `mod` n)))
      as [ws Hws].
    { destruct Hwf as (_ & -> & _). rewrite Hnq. lia. }
    exists ws. split; [done|]. rewrite (Hpos _ _ _ Hws), <- Ht. f_equal.
    rewrite Z2Nat.id by lia. rewrite Zminus_mod_idemp_l.
    replace (Z.of_nat t + 1 - 1) with (Z.of_nat t) by lia.
    rewrite Nat2Z.inj_div, Z2Nat.id by lia.
    pose proof (Z.div_mod (Z.of_nat t) n ltac:(lia)). lia.
  - intros j ws Hj. split; [intros p; by apply Hpos|]. split.
    + rewrite (proj2 Hrr _ _ Hj), Hnq. done.
    + rewrite <- Hnq. apply (round_robin_bound _ q j ws); [lia|done..].
  - intros task.
    destruct (add_item_round_robin task q (Z.of_nat (length tasks)) ltac:(lia) Hwf Hrr)
      as (q' & ws & Hq' & Hidx & Hws & Hst & _).
    exists q', ws, (push task ws). split; [done|]. split.
    { rewrite Hidx, (proj1 Hrr), Hnq. rewrite Z.add_mod_idemp_l by lia. done. }
    split; [done|]. split; [done|]. rewrite Hst. split.
    { apply list_lookup_insert_eq. by eapply lookup_lt_Some. }
    split_and!; try done.
    intros j Hne. by apply list_lookup_insert_ne.
Qed.

(** X11: After the submissions [tasks] to a fresh queue of [n] workers, the
    queue of worker [j] holds, in submission order, the submissions number
    [j], [j + n], [j + 2n], ... for [j ≥ 1] and number [n], [2n], ... for
    worker 0 (numbers counted from 1). *)
Theorem add_items_deals_in_order (mapper : Mapper)
    (reducer : Output → Output → Output) (data_initializer : Z → Data)
    (n : Z) (tasks : list Input) :
  1 ≤ n < UINT_MOD →
  ∃ q0 calls q,
    WorkQueue_new mapper reducer data_initializer n = Some (q0, calls)
    ∧ add_items tasks q0 = Some q
    ∧ ∀ j ws p, m_states q !! j = Some ws →
        m_queue ws !! p
        = tasks !! Z.to_nat ((Z.of_nat j - 1) `mod` n + Z.of_nat p * n).
Proof.
  intros Hn.
  destruct (wf_queue_new mapper reducer data_initializer n Hn)
    as (q0 & calls & Hnew & Hwf0 & Hrr0 & Hn0 & _ & _ & Hst0).
  destruct (add_items_dealt tasks q0 0 ltac:(lia) Hwf0 Hrr0) as (q & Hadd & Hq).
  exists q0, calls, q. split; [done|]. split; [done|].
  intros j ws p Hj. destruct (Hq _ _ Hj) as (ws0 & Hws0 & ->).
  rewrite Hst0 in Hws0. apply list_lookup_fmap_Some in Hws0 as (i & -> & Hi).
  simpl. rewrite Hn0. apply lookup_lt_Some in Hi. rewrite length_iota in Hi.
  rewrite dealt_lookup by lia. done.
Qed.

(** *** The run: steps and their invariants *)

Lemma pop_task_Some (ws ws' : WorkerState) (task : Input) :
  pop_task ws = Some (task, ws') →
  m_queue ws = task :: m_queue ws' ∧ m_id ws' = m_id ws
  ∧ m_data ws' = m_data ws ∧ m_result ws' = m_result ws.
Proof.
  unfold pop_task. destruct (m_queue ws) as [|t tl] eqn:E; [done|].
  by intros [= -> <-].
Qed.

Lemma pop_task_None (ws : WorkerState) : pop_task ws = None → m_queue ws = [].
Proof. unfold pop_task. by destruct (m_queue ws). Qed.

Lemma consume_spec (q : WorkQueue) (state state' : WorkerState) (task : Input)
    (out : Output) :
  consume q state task = (state', out) →
  m_queue state' = m_queue state ∧ m_id state' = m_id state
  ∧ m_result state' = m_reducer q (m_result state) out
  ∧ m_mapper q (m_id state) (m_data state) task = (out, m_data state').
Proof.
  unfold consume. destruct (m_mapper q _ _ _) as [o d]. by intros [= <- <-].
Qed.

Section RunProperties.

Variable q : WorkQueue.
Variable init_output : Output.
Variable rnd : nat → nat → nat.

Local Abbreviation n := (m_num_threads q).
Local Abbreviation reducer := (m_reducer q).

(** The steps of [thread_step] as a relation. *)
Inductive step (i : nat) (st : RunState) : RunState → Prop :=
| step_start state attempts :
    rs_pcs st !! i = Some Spawned →
    rs_states st !! i = Some state →
    create_permutation (to_int n) (to_uint (Z.of_nat i)) (rnd i) = Some attempts →
    step i st {| rs_states := <[ i := set_result init_output state ]> (rs_states st);
                 rs_pcs := <[ i := Walking attempts attempts ]> (rs_pcs st);
                 rs_trace := rs_trace st |}
| step_exit attempts :
    rs_pcs st !! i = Some (Walking attempts []) →
    step i st (set_pc i Exited st)
| step_miss attempts idx rest other_state :
    rs_pcs st !! i = Some (Walking attempts (idx :: rest)) →
    0 ≤ idx →
    rs_states st !! Z.to_nat idx = Some other_state →
    pop_task other_state = None →
    step i st (set_pc i (Walking attempts rest) st)
| step_pop attempts idx rest other_state other_state' task :
    rs_pcs st !! i = Some (Walking attempts (idx :: rest)) →
    0 ≤ idx →
    rs_states st !! Z.to_nat idx = Some other_state →
    pop_task other_state = Some (task, other_state') →
    step i st {| rs_states := <[ Z.to_nat idx := other_state' ]> (rs_states st);
                 rs_pcs := <[ i := Holding attempts task ]> (rs_pcs st);
                 rs_trace := rs_trace st |}
| step_consume attempts task state state' out :
    rs_pcs st !! i = Some (Holding attempts task) →
    rs_states st !! i = Some state →
    consume q state task = (state', out) →
    step i st {| rs_states := <[ i := state' ]> (rs_states st);
                 rs_pcs := <[ i := Walking attempts attempts ]> (rs_pcs st);
                 rs_trace := rs_trace st ++ [mkEvent i task out] |}.

Ltac step_cases Hstep :=
  destruct Hstep as [state attempts Hpc Hst Hperm
                    |attempts Hpc
                    |attempts idx rest other Hpc Hidx Hother Hpop
                    |attempts idx rest other other' task Hpc Hidx Hother Hpop
                    |attempts task state state' out Hpc Hst Hconsume].

(** **** Shape: one program counter per worker state *)
Definition shape (st : RunState) : Prop :=
  length (rs_states st) = Z.to_nat n ∧ length (rs_pcs st) = Z.to_nat n.

Definition queue_empty (st : RunState) (idx : Z) : Prop :=
  ∃ ws, rs_states st !! Z.to_nat idx = Some ws ∧ m_queue ws = [].

(** A walking worker holds a permutation of the worker indices and has seen
    the queues it walked past empty; a worker returns only when every queue
    is empty. *)
Definition walk_ok (st : RunState) (pc : Pc) : Prop :=
  match pc with
  | Spawned => True
  | Walking attempts rest =>
      attempts ≡ₚ iota (Z.to_nat n)
      ∧ ∃ visited, attempts = visited ++ rest ∧ ∀ idx, idx ∈ visited → queue_empty st idx
  | Holding attempts _ => attempts ≡ₚ iota (Z.to_nat n)
  | Exited => ∀ ws, ws ∈ rs_states st → m_queue ws = []
  end.

Definition walks (st : RunState) : Prop :=
  ∀ i pc, rs_pcs st !! i = Some pc → walk_ok st pc.

(** **** Every worker's result is the fold of the outputs it produced *)
Definition outputs_of (i : nat) (trace : list Event) : list Output :=
  ev_output <$> filter (λ ev, ev_worker ev = i) trace.

Definition result_ok (trace : list Event) (i : nat) (pc : Pc) (ws : WorkerState) : Prop :=
  match pc with
  | Spawned => outputs_of i trace = []
  | _ => m_result ws = foldl reducer init_output (outputs_of i trace)
  end.

Definition results_ok (st : RunState) : Prop :=
  ∀ i pc ws, rs_pcs st !! i = Some pc → rs_states st !! i = Some ws →
             result_ok (rs_trace st) i pc ws.

(** **** Every submitted task is in a queue, held by the worker that popped
    it, or in the trace *)
Definition tasks_left (states : list WorkerState) : list Input :=
  concat (m_queue <$> states).

Definition held_of (pc : Pc) : list Input :=
  match pc with Holding _ task => [task] | _ => [] end.

(** The tasks that were popped and are not yet consumed. *)
Definition tasks_held (pcs : list Pc) : list Input := concat (held_of <$> pcs).

Definition conserved (tasks : list Input) (st : RunState) : Prop :=
  (ev_task <$> rs_trace st) ++ tasks_held (rs_pcs st) ++ tasks_left (rs_states st)
  ≡ₚ tasks.

(** **** Every event is the work of a worker of the queue on its task *)
Definition event_ok (ev : Event) : Prop :=
  (ev_worker ev < Z.to_nat n)%nat
  ∧ ∃ id data, (m_mapper q id data (ev_task ev)).1 = ev_output ev.

Definition events_ok (st : RunState) : Prop := Forall event_ok (rs_trace st).

(** **** A single worker consumes its queue in order *)
Fixpoint seq_outputs (id : Z) (data : Data) (tasks : list Input) : list Output :=
  match tasks with
  | [] => []
  | task :: tasks' =>
      let '(out, data') := m_mapper q id data task in
      out :: seq_outputs id data' tasks'
  end.

Definition sequential (id : Z) (data : Data) (tasks : list Input) (st : RunState) : Prop :=
  ∃ ws pc, rs_states st = [ws] ∧ rs_pcs st = [pc] ∧ m_id ws = id
           ∧ (ev_output <$> rs_trace st)
               ++ seq_outputs id (m_data ws) (held_of pc ++ m_queue ws)
             = seq_outputs id data tasks.

(** **** Every schedule can be run to completion *)
Definition weight (pc : Pc) : nat :=
  match pc with
  | Spawned => Z.to_nat n + 3
  | Walking _ rest => length rest + 1
  | Holding _ _ => Z.to_nat n + 2
  | Exited => 0
  end.

Definition measure (st : RunState) : nat :=
  sum_list (weight <$> rs_pcs st)
  + (Z.to_nat n + 1) * length (tasks_left (rs_states st)).

Definition good (st : RunState) : Prop := shape st ∧ walks st.

Definition invariant (st : RunState) : Prop :=
  good st ∧ results_ok st ∧ conserved (tasks_left (m_states q)) st ∧ events_ok st.

(** **** Every worker starts its walk at its own queue *)
Definition attempts_of (pc : Pc) : option (list Z) :=
  match pc with
  | Walking attempts _ | Holding attempts _ => Some attempts
  | Spawned | Exited => None
  end.

Definition own_first (st : RunState) : Prop :=
  ∀ i pc attempts, rs_pcs st !! i = Some pc → attempts_of pc = Some attempts →
                   head attempts = Some (Z.of_nat i).

(** **** The data of a worker is touched by that worker only *)
Definition tasks_of (i : nat) (trace : list Event) : list Input :=
  ev_task <$> filter (λ ev, ev_worker ev = i) trace.

Fixpoint seq_data (id : Z) (data : Data) (tasks : list Input) : Data :=
  match tasks with
  | [] => data
  | task :: tasks' => seq_data id (m_mapper q id data task).2 tasks'
  end.

Definition isolated (data0 : nat → Data) (st : RunState) : Prop :=
  ∀ i ws, rs_states st !! i = Some ws →
    m_id ws = Z.of_nat i
    ∧ m_data ws = seq_data (Z.of_nat i) (data0 i) (tasks_of i (rs_trace st))
    ∧ outputs_of i (rs_trace st)
      = seq_outputs (Z.of_nat i) (data0 i) (tasks_of i (rs_trace st)).

Lemma thread_step_step (i : nat) (st st' : RunState) :
  thread_step q init_output rnd i st = Some st' → step i st st'.
Proof.
  unfold thread_step.
  destruct (rs_pcs st !! i) as [[|attempts [|idx rest]|attempts task|]|] eqn:Hpc;
    try done.
  - destruct (rs_states st !! i) as [state|] eqn:Hst; [|done]. simpl.
    destruct (create_permutation _ _ _) as [attempts|] eqn:Hperm; [|done]. simpl.
    intros [= <-]. by eapply step_start.
  - intros [= <-]. by eapply step_exit.
  - case_decide as Hidx; [done|].
    destruct (rs_states st !! Z.to_nat idx) as [other|] eqn:Hother; [|done]. simpl.
    destruct (pop_task other) as [[task other']|] eqn:Hpop.
    + intros [= <-]. eapply step_pop; eauto. lia.
    + intros [= <-]. eapply step_miss; eauto. lia.
  - destruct (rs_states st !! i) as [state|] eqn:Hst; [|done]. simpl.
    destruct (consume q state task) as [state' out] eqn:Hcons.
    intros [= <-]. by eapply step_consume.
Qed.

(** A property kept by every step is kept by every schedule. *)
Lemma run_threads_ind (P : RunState → Prop) :
  (∀ i st st', P st → step i st st' → P st') →
  ∀ sched st, P st → P (run_threads q init_output rnd sched st).
Proof.
  intros Hstep sched. unfold run_threads.
  induction sched as [|i sched IH]; intros st Hst; simpl; [done|].
  apply IH. destruct (thread_step q init_output rnd i st) as [st'|] eqn:E; simpl; [|done].
  eapply Hstep; [done|]. by apply thread_step_step.
Qed.

Lemma run_threads_app (sched sched' : list nat) (st : RunState) :
  run_threads q init_output rnd (sched ++ sched') st
  = run_threads q init_output rnd sched' (run_threads q init_output rnd sched st).
Proof. unfold run_threads. by rewrite foldl_app. Qed.

Lemma shape_step (i : nat) (st st' : RunState) : shape st → step i st st' → shape st'.
Proof.
  intros [Hs Hp]. destruct 1; unfold shape, set_pc; simpl;
    by rewrite ?length_insert.
Qed.

(** The number of threads is an [unsigned int] that is at least one. *)
Hypothesis Hthreads : 1 ≤ n < UINT_MOD.

Lemma to_int_threads : 0 ≤ to_int n → to_int n = n.
Proof.
  unfold to_int, UINT_MOD in *. intros H0.
  destruct (decide (n < 2 ^ 31)) as [Hlt|Hge].
  - rewrite Z.mod_small by lia. lia.
  - exfalso. revert H0.
    replace (n + 2 ^ 31) with (n - 2 ^ 31 + 1 * 2 ^ 32) by lia.
    rewrite Z.mod_add by lia. rewrite Z.mod_small by lia. lia.
Qed.

(** What one step does to the worker state at each index. *)
Lemma step_states (i : nat) (st st' : RunState) (k : nat) (ws' : WorkerState) :
  step i st st' → rs_states st' !! k = Some ws' →
  ∃ ws, rs_states st !! k = Some ws
        ∧ m_id ws' = m_id ws
        ∧ (m_queue ws' = m_queue ws ∨ ∃ task, m_queue ws = task :: m_queue ws')
        ∧ (k ≠ i → m_result ws' = m_result ws ∧ m_data ws' = m_data ws).
Proof.
  intros Hstep. step_cases Hstep; simpl; intros Hk.
  - apply list_lookup_insert_Some in Hk as [(-> & <- & _)|(Hne & Hk)].
    + exists state. by split_and!; [..|left|].
    + exists ws'. by split_and!; [..|left|].
  - exists ws'. by split_and!; [..|left|].
  - exists ws'. by split_and!; [..|left|].
  - apply pop_task_Some in Hpop as (Hq & Hid & Hd & Hr).
    apply list_lookup_insert_Some in Hk as [(<- & <- & _)|(Hne' & Hk)].
    + exists other. split; [done|]. split; [done|].
      split; [right; by exists task|done].
    + exists ws'. by split_and!; [..|left|].
  - apply consume_spec in Hconsume as (Hq' & Hid' & _ & _).
    apply list_lookup_insert_Some in Hk as [(-> & <- & _)|(Hne & Hk)].
    + exists state. split; [done|]. split; [done|]. split; [by left|done].
    + exists ws'. by split_and!; [..|left|].
Qed.

(** No step puts a task into a queue. *)
Lemma step_no_refill (i : nat) (st st' : RunState) (k : nat) (ws : WorkerState) :
  step i st st' → shape st → rs_states st !! k = Some ws → m_queue ws = [] →
  ∃ ws', rs_states st' !! k = Some ws' ∧ m_queue ws' = [].
Proof.
  intros Hstep Hshape Hk Hq.
  destruct (lookup_lt_is_Some_2 (rs_states st') k) as [ws' Hk'].
  { rewrite (proj1 (shape_step _ _ _ Hshape Hstep)), <- (proj1 Hshape).
    by eapply lookup_lt_Some. }
  exists ws'. split; [done|].
  destruct (step_states _ _ _ _ _ Hstep Hk') as (ws0 & Hk0 & _ & [Hsame|[task Hpop]] & _);
    simplify_eq; congruence.
Qed.

Lemma walk_ok_step (i : nat) (st st' : RunState) (pc : Pc) :
  step i st st' → shape st → walk_ok st pc → walk_ok st' pc.
Proof.
  intros Hstep Hshape. destruct pc as [|attempts rest|attempts task|]; simpl; [done| |done|].
  - intros (Hperm & visited & -> & Hvis). split; [done|].
    exists visited. split; [done|]. intros idx (ws & Hws & Hq)%Hvis.
    by eapply step_no_refill.
  - intros Hall ws' [k Hk']%list_elem_of_lookup.
    destruct (step_states _ _ _ _ _ Hstep Hk') as (ws & Hk & _ & [Hsame|[task Hpop]] & _).
    + rewrite Hsame. apply Hall. by eapply list_elem_of_lookup_2.
    + assert (m_queue ws = []) as Hq by (apply Hall; by eapply list_elem_of_lookup_2).
      congruence.
Qed.

Lemma walks_step (i : nat) (st st' : RunState) :
  shape st → walks st → step i st st' → walks st'.
Proof.
  intros Hshape Hwalks Hstep j pc Hj.
  assert (∀ pc', rs_pcs st' = <[ i := pc' ]> (rs_pcs st) →
                 walk_ok st' pc' → walk_ok st' pc) as Hcase.
  { intros pc' Hpcs Hnew. rewrite Hpcs in Hj.
    apply list_lookup_insert_Some in Hj as [(_ & <- & _)|(_ & Hj)]; [done|].
    eapply walk_ok_step; [done..|]. by eapply Hwalks. }
  pose proof Hstep as Hstep'.
  step_cases Hstep'; (eapply Hcase; [reflexivity|]); simpl.
  - apply create_permutation_Some in Hperm as (H0 & Hperm & _).
    rewrite to_int_threads in Hperm by done.
    split; [done|]. exists []. by split; [|intros ? ?%elem_of_nil].
  - destruct (Hwalks _ _ Hpc) as (Hperm & visited & Hvis & Hempty).
    rewrite app_nil_r in Hvis. subst visited.
    intros ws [k Hk]%list_elem_of_lookup.
    assert (Z.of_nat k ∈ attempts) as Hin.
    { rewrite Hperm. apply elem_of_iota.
      apply lookup_lt_Some in Hk. rewrite (proj1 Hshape) in Hk. lia. }
    destruct (Hempty _ Hin) as (ws0 & Hws0 & Hq). rewrite Nat2Z.id in Hws0.
    congruence.
  - destruct (Hwalks _ _ Hpc) as (Hperm & visited & Hvis & Hempty).
    split; [done|]. exists (visited ++ [idx]). split; [by rewrite <- app_assoc|].
    intros idx' [Hin|Heq%list_elem_of_singleton]%elem_of_app; [by apply Hempty|].
    subst idx'. exists other. split; [done|]. by apply pop_task_None.
  - by destruct (Hwalks _ _ Hpc) as (Hperm & _).
  - pose proof (Hwalks _ _ Hpc) as Hperm. simpl in Hperm.
    split; [done|]. exists []. by split; [|intros ? ?%elem_of_nil].
Qed.

Lemma step_pcs (i : nat) (st st' : RunState) :
  step i st st' →
  ∃ pc pc', rs_pcs st !! i = Some pc ∧ rs_pcs st' = <[ i := pc' ]> (rs_pcs st).
Proof. destruct 1; eauto. Qed.

Lemma step_trace (i : nat) (st st' : RunState) :
  step i st st' →
  rs_trace st' = rs_trace st
  ∨ ∃ task out, rs_trace st' = rs_trace st ++ [mkEvent i task out].
Proof. destruct 1; eauto. Qed.

Lemma outputs_of_snoc (j : nat) (trace : list Event) (ev : Event) :
  outputs_of j (trace ++ [ev])
  = outputs_of j trace ++ (if decide (ev_worker ev = j) then [ev_output ev] else []).
Proof.
  unfold outputs_of. rewrite filter_app, fmap_app. f_equal.
  rewrite filter_cons, filter_nil. by case_decide.
Qed.

Lemma results_ok_step (i : nat) (st st' : RunState) :
  results_ok st → step i st st' → results_ok st'.
Proof.
  intros Hres Hstep j pc ws' Hpc' Hws'.
  destruct (decide (j = i)) as [->|Hne].
  - step_cases Hstep; simpl in *.
    + apply list_lookup_insert_Some in Hpc' as [(_ & <- & _)|(? & _)]; [|done].
      apply list_lookup_insert_Some in Hws' as [(_ & <- & _)|(? & _)]; [|done].
      simpl. by rewrite (Hres _ _ _ Hpc Hst).
    + apply list_lookup_insert_Some in Hpc' as [(_ & <- & _)|(? & _)]; [|done].
      apply (Hres _ _ _ Hpc Hws').
    + apply list_lookup_insert_Some in Hpc' as [(_ & <- & _)|(? & _)]; [|done].
      apply (Hres _ _ _ Hpc Hws').
    + apply list_lookup_insert_Some in Hpc' as [(_ & <- & _)|(? & _)]; [|done].
      apply pop_task_Some in Hpop as (_ & _ & _ & Hr). simpl.
      apply list_lookup_insert_Some in Hws' as [(Hik & <- & _)|(? & Hws')].
      * rewrite Hr. rewrite Hik in Hother. apply (Hres _ _ _ Hpc Hother).
      * apply (Hres _ _ _ Hpc Hws').
    + apply list_lookup_insert_Some in Hpc' as [(_ & <- & _)|(? & _)]; [|done].
      apply list_lookup_insert_Some in Hws' as [(_ & <- & _)|(? & _)]; [|done].
      simpl. rewrite outputs_of_snoc. simpl. rewrite decide_True by done.
      rewrite foldl_app. simpl.
      apply consume_spec in Hconsume as (_ & _ & -> & _). f_equal.
      apply (Hres _ _ _ Hpc Hst).
  - destruct (step_pcs _ _ _ Hstep) as (pc0 & pc1 & _ & Hpcs).
    rewrite Hpcs, list_lookup_insert_ne in Hpc' by done.
    destruct (step_states _ _ _ _ _ Hstep Hws') as (ws & Hws & _ & _ & Hsame).
    destruct (Hsame Hne) as [Hr _].
    assert (outputs_of j (rs_trace st') = outputs_of j (rs_trace st)) as Hout.
    { destruct (step_trace _ _ _ Hstep) as [->|(task & out & ->)]; [done|].
      rewrite outputs_of_snoc. simpl. rewrite decide_False by done.
      by rewrite app_nil_r. }
    specialize (Hres _ _ _ Hpc' Hws). unfold result_ok in *.
    rewrite Hout. destruct pc; congruence.
Qed.

Lemma tasks_left_insert (states : list WorkerState) (k : nat) (x y : WorkerState) :
  states !! k = Some x →
  tasks_left (<[ k := y ]> states) ++ m_queue x ≡ₚ tasks_left states ++ m_queue y.
Proof.
  intros (l1 & l2 & -> & ->)%list_elem_of_split_length. unfold tasks_left.
  rewrite insert_app_r_alt, Nat.sub_diag by lia. simpl.
  rewrite !fmap_app, !concat_app. simpl. solve_Permutation.
Qed.

Lemma tasks_left_insert_same (states : list WorkerState) (k : nat) (x y : WorkerState) :
  states !! k = Some x → m_queue y = m_queue x →
  tasks_left (<[ k := y ]> states) = tasks_left states.
Proof.
  intros (l1 & l2 & -> & ->)%list_elem_of_split_length Hq. unfold tasks_left.
  rewrite insert_app_r_alt, Nat.sub_diag by lia. simpl.
  rewrite !fmap_app, !concat_app. simpl. by rewrite Hq.
Qed.

Lemma tasks_held_insert (pcs : list Pc) (i : nat) (pc pc' : Pc) :
  pcs !! i = Some pc →
  tasks_held (<[ i := pc' ]> pcs) ++ held_of pc ≡ₚ tasks_held pcs ++ held_of pc'.
Proof.
  intros (l1 & l2 & -> & ->)%list_elem_of_split_length. unfold tasks_held.
  rewrite insert_app_r_alt, Nat.sub_diag by lia. simpl.
  rewrite !fmap_app, !concat_app. simpl. solve_Permutation.
Qed.

Lemma tasks_held_insert_same (pcs : list Pc) (i : nat) (pc pc' : Pc) :
  pcs !! i = Some pc → held_of pc' = held_of pc →
  tasks_held (<[ i := pc' ]> pcs) = tasks_held pcs.
Proof.
  intros (l1 & l2 & -> & ->)%list_elem_of_split_length Hh. unfold tasks_held.
  rewrite insert_app_r_alt, Nat.sub_diag by lia. simpl.
  rewrite !fmap_app, !concat_app. simpl. by rewrite Hh.
Qed.

Lemma conserved_step (tasks : list Input) (i : nat) (st st' : RunState) :
  conserved tasks st → step i st st' → conserved tasks st'.
Proof.
  unfold conserved. intros Hcons Hstep. step_cases Hstep; simpl.
  - rewrite (tasks_held_insert_same _ _ _ _ Hpc) by done.
    by rewrite (tasks_left_insert_same _ _ state).
  - by rewrite (tasks_held_insert_same _ _ _ _ Hpc).
  - by rewrite (tasks_held_insert_same _ _ _ _ Hpc).
  - apply pop_task_Some in Hpop as (Hq & _).
    pose proof (tasks_held_insert _ _ _ (Holding attempts task) Hpc) as Hheld.
    simpl in Hheld. rewrite app_nil_r in Hheld.
    pose proof (tasks_left_insert _ _ _ other' Hother) as Hleft.
    rewrite Hq in Hleft.
    assert (tasks_left (rs_states st)
            ≡ₚ task :: tasks_left (<[Z.to_nat idx:=other']> (rs_states st))) as Hl.
    { apply (inj (.++ m_queue other')). rewrite <- Hleft. solve_Permutation. }
    rewrite <- Hcons, Hheld, Hl. solve_Permutation.
  - apply consume_spec in Hconsume as (Hq & _).
    rewrite (tasks_left_insert_same _ _ state) by done.
    pose proof (tasks_held_insert _ _ _ (Walking attempts attempts) Hpc) as Hheld.
    simpl in Hheld. rewrite app_nil_r in Hheld.
    rewrite <- Hcons, <- Hheld, fmap_app. simpl. solve_Permutation.
Qed.

Lemma events_ok_step (i : nat) (st st' : RunState) :
  shape st → events_ok st → step i st st' → events_ok st'.
Proof.
  unfold events_ok. intros Hshape Hev Hstep. step_cases Hstep; simpl; try done.
  apply Forall_app. split; [done|]. apply Forall_singleton. split; simpl.
  - apply lookup_lt_Some in Hpc. by rewrite (proj2 Hshape) in Hpc.
  - apply consume_spec in Hconsume as (_ & _ & _ & Hmap).
    exists (m_id state), (m_data state). by rewrite Hmap.
Qed.

Lemma sequential_step (id : Z) (data : Data) (tasks : list Input)
    (i : nat) (st st' : RunState) :
  sequential id data tasks st → step i st st' → sequential id data tasks st'.
Proof.
  intros (ws & pc & Hstates & Hpcs & Hid & Hseq) Hstep.
  step_cases Hstep; unfold sequential, set_pc; simpl;
    rewrite Hstates, Hpcs in *; (destruct i as [|i]; [|done]); simplify_eq/=.
  - by exists (set_result init_output state), (Walking attempts attempts).
  - by exists ws, Exited.
  - by exists ws, (Walking attempts rest).
  - destruct (Z.to_nat idx) as [|k]; [|done]. simplify_eq/=.
    apply pop_task_Some in Hpop as (Hq & Hid & Hd & _).
    exists other', (Holding attempts task). split_and!; try done.
    simpl in *. by rewrite <- Hseq, Hq, Hd.
  - apply consume_spec in Hconsume as (Hq' & Hid' & _ & Hmap).
    exists state', (Walking attempts attempts). split_and!; try done.
    rewrite <- Hseq, fmap_app, <- app_assoc. simpl. f_equal.
    by rewrite Hmap, Hq'.
Qed.

Lemma sum_list_insert (l : list nat) (i x y : nat) :
  l !! i = Some x → (sum_list (<[ i := y ]> l) + x = sum_list l + y)%nat.
Proof.
  intros (l1 & l2 & -> & ->)%list_elem_of_split_length.
  rewrite insert_app_r_alt, Nat.sub_diag by lia. simpl.
  rewrite !sum_list_with_app. simpl. lia.
Qed.

Lemma weight_insert (pcs : list Pc) (i : nat) (pc pc' : Pc) :
  pcs !! i = Some pc →
  (sum_list (weight <$> <[ i := pc' ]> pcs) + weight pc
   = sum_list (weight <$> pcs) + weight pc')%nat.
Proof.
  intros Hpc. rewrite list_fmap_insert. apply sum_list_insert.
  by rewrite list_lookup_fmap, Hpc.
Qed.

Lemma length_attempts (attempts : list Z) :
  attempts ≡ₚ iota (Z.to_nat n) → length attempts = Z.to_nat n.
Proof. intros ->. apply length_iota. Qed.

Lemma measure_step (i : nat) (st st' : RunState) :
  shape st → walks st → step i st st' → (measure st' < measure st)%nat.
Proof.
  intros Hshape Hwalks Hstep. unfold measure. step_cases Hstep; simpl.
  - rewrite (tasks_left_insert_same _ _ state) by done.
    pose proof (weight_insert _ _ _ (Walking attempts attempts) Hpc) as Hw.
    apply create_permutation_Some in Hperm as (H0 & Hperm & _).
    rewrite to_int_threads in Hperm by done.
    simpl in Hw. rewrite (length_attempts _ Hperm) in Hw. lia.
  - pose proof (weight_insert _ _ _ Exited Hpc) as Hw. simpl in Hw. lia.
  - pose proof (weight_insert _ _ _ (Walking attempts rest) Hpc) as Hw.
    simpl in Hw. lia.
  - pose proof (weight_insert _ _ _ (Holding attempts task) Hpc) as Hw.
    simpl in Hw.
    apply pop_task_Some in Hpop as (Hpop & _).
    pose proof (tasks_left_insert _ _ _ other' Hother) as Hlen.
    apply Permutation_length in Hlen. rewrite !length_app, Hpop in Hlen.
    simpl in Hlen. nia.
  - pose proof (weight_insert _ _ _ (Walking attempts attempts) Hpc) as Hw.
    pose proof (Hwalks _ _ Hpc) as Hperm.
    simpl in Hw, Hperm. rewrite (length_attempts _ Hperm) in Hw.
    apply consume_spec in Hconsume as (Hq & _).
    rewrite (tasks_left_insert_same _ _ state) by done. lia.
Qed.

Lemma thread_step_progress (i : nat) (st : RunState) (pc : Pc) :
  n ≤ INT_MAX → shape st → walks st →
  rs_pcs st !! i = Some pc → is_exited pc = false →
  is_Some (thread_step q init_output rnd i st).
Proof.
  intros Hint Hshape Hwalks Hpc Hrun. unfold thread_step. rewrite Hpc.
  assert (i < Z.to_nat n)%nat as Hi.
  { apply lookup_lt_Some in Hpc. by rewrite (proj2 Hshape) in Hpc. }
  destruct pc as [|attempts [|idx rest]|attempts task|]; [| | |..]; try done.
  - destruct (lookup_lt_is_Some_2 (rs_states st) i) as [state ->];
      [by rewrite (proj1 Hshape)|]. simpl.
    assert (to_int n = n) as ->.
    { unfold to_int, UINT_MOD, INT_MAX in *. rewrite Z.mod_small; lia. }
    rewrite to_uint_small by lia.
    destruct (create_permutation_total n (Z.of_nat i) (rnd i)) as (l & -> & _);
      [lia..|done].
  - destruct (Hwalks _ _ Hpc) as (Hperm & visited & Hvis & _).
    assert (idx ∈ attempts) as Hin.
    { rewrite Hvis. apply elem_of_app. right. apply list_elem_of_here. }
    rewrite Hperm in Hin. apply elem_of_iota in Hin.
    rewrite decide_False by lia.
    destruct (lookup_lt_is_Some_2 (rs_states st) (Z.to_nat idx)) as [other ->];
      [rewrite (proj1 Hshape); lia|]. simpl.
    by destruct (pop_task other) as [[task other']|].
  - destruct (lookup_lt_is_Some_2 (rs_states st) i) as [state ->];
      [by rewrite (proj1 Hshape)|]. simpl.
    by destruct (consume q state task).
Qed.

Lemma forallb_false_lookup {A} (f : A → bool) (l : list A) :
  forallb f l = false → ∃ i x, l !! i = Some x ∧ f x = false.
Proof.
  induction l as [|x l IH]; simpl; [done|].
  destruct (f x) eqn:Hx; simpl.
  - intros (i & y & Hi & Hy)%IH. by exists (S i), y.
  - intros _. by exists 0%nat, x.
Qed.

Lemma good_step (i : nat) (st st' : RunState) : good st → step i st st' → good st'.
Proof.
  intros [Hshape Hwalks] Hstep.
  split; [by eapply shape_step|by eapply walks_step].
Qed.

Lemma run_threads_completes (st : RunState) :
  n ≤ INT_MAX → good st →
  ∃ sched, forallb is_exited (rs_pcs (run_threads q init_output rnd sched st)) = true.
Proof.
  intros Hint. remember (measure st) as m eqn:Hm.
  revert st Hm. induction (lt_wf m) as [m _ IH]. intros st -> Hgood.
  destruct (forallb is_exited (rs_pcs st)) eqn:Hall.
  { by exists []. }
  apply forallb_false_lookup in Hall as (i & pc & Hpc & Hrun).
  destruct (thread_step_progress i st pc Hint (proj1 Hgood) (proj2 Hgood) Hpc Hrun)
    as [st' Hstep].
  pose proof (thread_step_step _ _ _ Hstep) as Hrel.
  destruct (IH (measure st') (measure_step _ _ _ (proj1 Hgood) (proj2 Hgood) Hrel)
              st' eq_refl (good_step _ _ _ Hgood Hrel)) as [sched Hsched].
  exists (i :: sched). unfold run_threads in *. simpl. by rewrite Hstep.
Qed.

(** **** The run from [spawn] *)
Hypothesis Hstates : length (m_states q) = Z.to_nat n.

Lemma tasks_held_empty (pcs : list Pc) :
  (∀ pc, pc ∈ pcs → held_of pc = []) → tasks_held pcs = [].
Proof.
  unfold tasks_held. induction pcs as [|pc pcs IH]; intros Hall; simpl; [done|].
  rewrite (Hall pc) by apply list_elem_of_here. simpl.
  apply IH. intros pc' Hin. apply Hall. by apply list_elem_of_further.
Qed.

Lemma invariant_spawn : invariant (spawn q).
Proof.
  unfold invariant, good, shape, walks, results_ok, conserved, events_ok, spawn.
  simpl. split_and!; try done.
  - by rewrite length_replicate.
  - by intros i pc [-> _]%lookup_replicate.
  - by intros i pc ws [-> _]%lookup_replicate _.
  - rewrite tasks_held_empty; [done|]. by intros pc [-> _]%elem_of_replicate.
Qed.

Lemma invariant_step (i : nat) (st st' : RunState) :
  invariant st → step i st st' → invariant st'.
Proof.
  intros (Hgood & Hres & Hcons & Hev) Hstep. split_and!.
  - by eapply good_step.
  - by eapply results_ok_step.
  - by eapply conserved_step.
  - eapply events_ok_step; [apply Hgood|done..].
Qed.

Lemma invariant_run (sched : list nat) :
  invariant (run_threads q init_output rnd sched (spawn q)).
Proof. apply run_threads_ind; [apply invariant_step|apply invariant_spawn]. Qed.

Lemma forallb_lookup {A} (f : A → bool) (l : list A) (i : nat) (x : A) :
  forallb f l = true → l !! i = Some x → f x = true.
Proof.
  revert i. induction l as [|y l IH]; intros i; simpl; [done|].
  intros [Hy Hl]%andb_true_iff. destruct i as [|i]; simpl.
  - by intros [= <-].
  - by apply IH.
Qed.

Lemma tasks_left_empty (states : list WorkerState) :
  (∀ ws, ws ∈ states → m_queue ws = []) → tasks_left states = [].
Proof.
  unfold tasks_left. induction states as [|ws states IH]; intros Hall; simpl; [done|].
  rewrite (Hall ws) by apply list_elem_of_here. simpl.
  apply IH. intros ws' Hin. apply Hall. by apply list_elem_of_further.
Qed.

(** What a completed run leaves: the returned value is the fold of the
    reducer over the workers' results, each of them the fold over the
    outputs the worker produced, and the tasks consumed are the tasks that
    were in the queues. *)
Lemma run_all_sound (sched : list nat) (out : Output) :
  run_all q init_output rnd sched = Some out →
  let st := run_threads q init_output rnd sched (spawn q) in
  out = foldl (λ result ts, reducer result (m_result ts)) init_output (rs_states st)
  ∧ length (rs_states st) = Z.to_nat n
  ∧ (∀ i ws, rs_states st !! i = Some ws →
       m_result ws = foldl reducer init_output (outputs_of i (rs_trace st)))
  ∧ ev_task <$> rs_trace st ≡ₚ tasks_left (m_states q)
  ∧ events_ok st
  ∧ (∀ ws, ws ∈ rs_states st → m_queue ws = []).
Proof.
  unfold run_all. simpl.
  destruct (invariant_run sched) as ((Hshape & Hwalks) & Hres & Hcons & Hev).
  set (st := run_threads q init_output rnd sched (spawn q)) in *.
  destruct (forallb is_exited (rs_pcs st)) eqn:Hall; [|done].
  intros [= <-]. split; [done|]. split; [apply Hshape|].
  assert (∀ i pc, rs_pcs st !! i = Some pc → pc = Exited) as Hexited.
  { intros i pc Hpc. pose proof (forallb_lookup _ _ _ _ Hall Hpc). by destruct pc. }
  assert (∀ ws, ws ∈ rs_states st → m_queue ws = []) as Hempty.
  { destruct (lookup_lt_is_Some_2 (rs_pcs st) 0) as [pc Hpc].
    { rewrite (proj2 Hshape). lia. }
    pose proof (Hwalks _ _ Hpc) as Hw. by rewrite (Hexited _ _ Hpc) in Hw. }
  split; [|split; [|done]].
  - intros i ws Hws.
    destruct (lookup_lt_is_Some_2 (rs_pcs st) i) as [pc Hpc].
    { rewrite (proj2 Hshape), <- (proj1 Hshape). by eapply lookup_lt_Some. }
    pose proof (Hres _ _ _ Hpc Hws) as Hr. by rewrite (Hexited _ _ Hpc) in Hr.
  - unfold conserved in Hcons.
    rewrite (tasks_left_empty _ Hempty), tasks_held_empty, !app_nil_r in Hcons; [done|].
    intros pc [i Hpc]%list_elem_of_lookup. by rewrite (Hexited _ _ Hpc).
Qed.

Lemma run_all_completes (sched : list nat) :
  n ≤ INT_MAX →
  ∃ sched' out, run_all q init_output rnd (sched ++ sched') = Some out.
Proof.
  intros Hint.
  destruct (run_threads_completes (run_threads q init_output rnd sched (spawn q)) Hint)
    as [sched' Hdone]; [apply invariant_run|].
  exists sched'. unfold run_all. rewrite run_threads_app, Hdone. by eexists.
Qed.

(** A queue of one worker: the result is [init_output] reduced with the
    fold over the outputs in queue order. *)
Lemma outputs_of_all (i : nat) (trace : list Event) :
  Forall (λ ev, ev_worker ev = i) trace → outputs_of i trace = ev_output <$> trace.
Proof.
  unfold outputs_of. induction 1 as [|ev trace Hev _ IH]; [done|].
  rewrite filter_cons, decide_True by done. rewrite !fmap_cons. by rewrite IH.
Qed.

Lemma run_all_single (sched : list nat) (out : Output) (ws : WorkerState) :
  m_states q = [ws] →
  run_all q init_output rnd sched = Some out →
  out = reducer init_output
          (foldl reducer init_output (seq_outputs (m_id ws) (m_data ws) (m_queue ws))).
Proof.
  intros Hq Hrun.
  assert (Z.to_nat n = 1%nat) as Hone by (by rewrite <- Hstates, Hq).
  assert (sequential (m_id ws) (m_data ws) (m_queue ws)
            (run_threads q init_output rnd sched (spawn q)))
    as (ws' & pc & Hst & Hpcs & _ & Hseq).
  { apply run_threads_ind; [intros; by eapply sequential_step|].
    exists ws, Spawned. unfold spawn. simpl. rewrite Hone. by split_and!. }
  assert (pc = Exited) as ->.
  { revert Hrun. unfold run_all. rewrite Hpcs. simpl. by destruct pc. }
  destruct (run_all_sound _ _ Hrun) as (-> & Hlen & Hres & _ & Hev & Hempty).
  set (st := run_threads q init_output rnd sched (spawn q)) in *.
  rewrite Hst. simpl. f_equal.
  rewrite (Hres 0%nat ws') by (by rewrite Hst).
  rewrite (Hempty ws') in Hseq by (rewrite Hst; apply list_elem_of_here).
  simpl in Hseq. rewrite app_nil_r in Hseq. rewrite <- Hseq.
  rewrite outputs_of_all; [done|].
  eapply Forall_impl; [apply Hev|]. intros ev [Hw _]. lia.
Qed.

(** **** Own queue first *)
Lemma own_first_step (i : nat) (st st' : RunState) :
  shape st → own_first st → step i st st' → own_first st'.
Proof.
  intros Hshape Hown Hstep j pc attempts' Hj Hatt.
  assert (∀ pc', rs_pcs st' = <[ i := pc' ]> (rs_pcs st) →
            (attempts_of pc' = Some attempts' → head attempts' = Some (Z.of_nat i)) →
            head attempts' = Some (Z.of_nat j)) as Hcase.
  { intros pc' Hpcs Hnew. rewrite Hpcs in Hj.
    apply list_lookup_insert_Some in Hj as [(<- & -> & _)|(_ & Hj)]; [by apply Hnew|].
    by eapply Hown. }
  step_cases Hstep; (eapply Hcase; [reflexivity|]); simpl.
  - intros [= <-].
    apply create_permutation_Some in Hperm as (H0 & Hperm & a & Hhd & Ha).
    rewrite Hhd. f_equal.
    assert (a ∈ iota (Z.to_nat (to_int n))) as Hin.
    { rewrite <- Hperm. destruct attempts as [|a' l]; [done|].
      injection Hhd as ->. apply list_elem_of_here. }
    apply elem_of_iota in Hin.
    assert (to_int n ≤ INT_MAX) as Hmax.
    { unfold to_int, INT_MAX, UINT_MOD.
      pose proof (Z.mod_pos_bound (n + 2 ^ 31) (2 ^ 32) ltac:(lia)). lia. }
    rewrite to_int_threads in Hin, Hmax by done.
    apply lookup_lt_Some in Hpc. rewrite (proj2 Hshape) in Hpc.
    rewrite !to_uint_small in Ha by lia. done.
  - done.
  - intros [= <-]. by eapply Hown.
  - intros [= <-]. by eapply Hown.
  - intros [= <-]. by eapply Hown.
Qed.

Lemma own_queue_pop_step (i : nat) (st : RunState) (attempts : list Z)
    (ws : WorkerState) (task : Input) (tl : list Input) :
  own_first st →
  rs_pcs st !! i = Some (Walking attempts attempts) →
  rs_states st !! i = Some ws →
  m_queue ws = task :: tl →
  ∃ st' ws',
    thread_step q init_output rnd i st = Some st'
    ∧ rs_pcs st' !! i = Some (Holding attempts task)
    ∧ rs_trace st' = rs_trace st
    ∧ rs_states st' !! i = Some ws'
    ∧ m_queue ws' = tl ∧ m_id ws' = m_id ws
    ∧ m_data ws' = m_data ws ∧ m_result ws' = m_result ws
    ∧ ∀ j, j ≠ i → rs_states st' !! j = rs_states st !! j
                   ∧ rs_pcs st' !! j = rs_pcs st !! j.
Proof.
  intros Hown Hpc Hws Hq. pose proof (Hown _ _ _ Hpc eq_refl) as Hhd.
  destruct attempts as [|idx rest]; [done|]. injection Hhd as ->.
  unfold thread_step. rewrite Hpc. rewrite decide_False by lia.
  rewrite Nat2Z.id, Hws. simpl. unfold pop_task. rewrite Hq.
  eexists _, {| m_id := m_id ws; m_queue := tl; m_data := m_data ws;
                m_result := m_result ws |}.
  split; [done|]. simpl.
  rewrite !list_lookup_insert_eq by (by eapply lookup_lt_Some).
  split_and!; try done.
  intros j Hne. by rewrite !list_lookup_insert_ne.
Qed.

Lemma held_consume_step (i : nat) (st : RunState) (attempts : list Z)
    (ws : WorkerState) (task : Input) :
  rs_pcs st !! i = Some (Holding attempts task) →
  rs_states st !! i = Some ws →
  ∃ st' ws' out,
    thread_step q init_output rnd i st = Some st'
    ∧ rs_pcs st' !! i = Some (Walking attempts attempts)
    ∧ rs_trace st' = rs_trace st ++ [mkEvent i task out]
    ∧ m_mapper q (m_id ws) (m_data ws) task = (out, m_data ws')
    ∧ rs_states st' !! i = Some ws'
    ∧ m_queue ws' = m_queue ws ∧ m_id ws' = m_id ws
    ∧ m_result ws' = reducer (m_result ws) out
    ∧ ∀ j, j ≠ i → rs_states st' !! j = rs_states st !! j
                   ∧ rs_pcs st' !! j = rs_pcs st !! j.
Proof.
  intros Hpc Hws. unfold thread_step. rewrite Hpc, Hws. simpl.
  unfold consume.
  destruct (m_mapper q (m_id ws) (m_data ws) task) as [out data] eqn:Hmap.
  eexists _, {| m_id := m_id ws; m_queue := m_queue ws; m_data := data;
                m_result := reducer (m_result ws) out |}, out.
  split; [done|]. simpl.
  rewrite !list_lookup_insert_eq by (by eapply lookup_lt_Some).
  split_and!; try done.
  intros j Hne. by rewrite !list_lookup_insert_ne.
Qed.

(** The pop and the consume as two consecutive steps of the worker. *)
Lemma own_queue_first_steps (i : nat) (st : RunState) (attempts : list Z)
    (ws : WorkerState) (task : Input) (tl : list Input) :
  own_first st →
  rs_pcs st !! i = Some (Walking attempts attempts) →
  rs_states st !! i = Some ws →
  m_queue ws = task :: tl →
  ∃ st1 st2 ws' out,
    thread_step q init_output rnd i st = Some st1
    ∧ thread_step q init_output rnd i st1 = Some st2
    ∧ rs_trace st2 = rs_trace st ++ [mkEvent i task out]
    ∧ m_mapper q (m_id ws) (m_data ws) task = (out, m_data ws')
    ∧ rs_states st2 !! i = Some ws'
    ∧ m_queue ws' = tl
    ∧ ∀ j, j ≠ i → rs_states st2 !! j = rs_states st !! j.
Proof.
  intros Hown Hpc Hws Hq.
  destruct (own_queue_pop_step i st attempts ws task tl Hown Hpc Hws Hq)
    as (st1 & ws1 & Hstep1 & Hpc1 & Htr1 & Hws1 & Hq1 & Hid1 & Hd1 & _ & Hoth1).
  destruct (held_consume_step i st1 attempts ws1 task Hpc1 Hws1)
    as (st2 & ws' & out & Hstep2 & _ & Htr2 & Hmap & Hws' & Hq' & _ & _ & Hoth2).
  exists st1, st2, ws', out. split_and!; try done; try congruence.
  intros j Hne. rewrite (proj1 (Hoth2 j Hne)). apply (Hoth1 j Hne).
Qed.

(** **** Private data *)
Lemma tasks_of_snoc (j : nat) (trace : list Event) (ev : Event) :
  tasks_of j (trace ++ [ev])
  = tasks_of j trace ++ (if decide (ev_worker ev = j) then [ev_task ev] else []).
Proof.
  unfold tasks_of. rewrite filter_app, fmap_app. f_equal.
  rewrite filter_cons, filter_nil. by case_decide.
Qed.

Lemma seq_snoc (id : Z) (data : Data) (tasks : list Input) (task : Input) :
  seq_data id data (tasks ++ [task])
  = (m_mapper q id (seq_data id data tasks) task).2
  ∧ seq_outputs id data (tasks ++ [task])
    = seq_outputs id data tasks ++ [(m_mapper q id (seq_data id data tasks) task).1].
Proof.
  revert data. induction tasks as [|t tasks IH]; intros data; simpl.
  - by destruct (m_mapper q id data task).
  - destruct (m_mapper q id data t) as [out data']. simpl.
    destruct (IH data') as [-> ->]. done.
Qed.

Lemma isolated_step (data0 : nat → Data) (i : nat) (st st' : RunState) :
  isolated data0 st → step i st st' → isolated data0 st'.
Proof.
  intros Hiso Hstep k ws' Hws'.
  destruct (decide (k = i)) as [->|Hne].
  - step_cases Hstep; simpl in *.
    + apply list_lookup_insert_Some in Hws' as [(_ & <- & _)|(? & _)]; [|done].
      apply (Hiso _ _ Hst).
    + by apply Hiso.
    + by apply Hiso.
    + apply pop_task_Some in Hpop as (_ & Hid & Hd & _).
      apply list_lookup_insert_Some in Hws' as [(Hik & <- & _)|(? & Hws')].
      * rewrite Hid, Hd. rewrite Hik in Hother. by apply Hiso.
      * by apply Hiso.
    + apply list_lookup_insert_Some in Hws' as [(_ & <- & _)|(? & _)]; [|done].
      apply consume_spec in Hconsume as (_ & Hid' & _ & Hmap).
      destruct (Hiso _ _ Hst) as (Hi1 & Hi2 & Hi3).
      rewrite tasks_of_snoc, outputs_of_snoc. simpl. rewrite !decide_True by done.
      destruct (seq_snoc (Z.of_nat i) (data0 i) (tasks_of i (rs_trace st)) task)
        as [-> ->].
      rewrite <- Hi2, <- Hi1, Hmap, Hi3. simpl.
      split_and!; [done|done|by rewrite Hi1].
  - destruct (step_states _ _ _ _ _ Hstep Hws') as (ws & Hws & Hid & _ & Hsame).
    destruct (Hsame Hne) as [_ Hd]. destruct (Hiso _ _ Hws) as (Hi1 & Hi2 & Hi3).
    assert (tasks_of k (rs_trace st') = tasks_of k (rs_trace st)
            ∧ outputs_of k (rs_trace st') = outputs_of k (rs_trace st)) as [-> ->].
    { destruct (step_trace _ _ _ Hstep) as [->|(task & out & ->)]; [done|].
      rewrite tasks_of_snoc, outputs_of_snoc. simpl. rewrite !decide_False by done.
      by rewrite !app_nil_r. }
    split_and!; congruence.
Qed.

(** **** What holds at every point of every schedule *)
Lemma own_first_run (sched : list nat) :
  own_first (run_threads q init_output rnd sched (spawn q)).
Proof.
  assert (shape (run_threads q init_output rnd sched (spawn q))
          ∧ own_first (run_threads q init_output rnd sched (spawn q))) as [_ H];
    [|done].
  apply run_threads_ind.
  - intros i st st' [Hshape Hown] Hstep.
    split; [by eapply shape_step|by eapply own_first_step].
  - split; [apply invariant_spawn|].
    by intros i pc attempts [-> _]%lookup_replicate.
Qed.

Lemma isolated_run (data0 : nat → Data) (sched : list nat) :
  (∀ i ws, m_states q !! i = Some ws → m_id ws = Z.of_nat i ∧ m_data ws = data0 i) →
  isolated data0 (run_threads q init_output rnd sched (spawn q)).
Proof.
  intros Hinit. apply run_threads_ind; [intros; by eapply isolated_step|].
  intros i ws Hws. simpl in *. destruct (Hinit _ _ Hws) as [-> ->]. done.
Qed.

(** As soon as one worker has returned every queue is empty, and every task
    that was in a queue at the start is in the trace or held by the worker
    that popped it. *)
Lemma exited_drained (sched : list nat) (i : nat) :
  let st := run_threads q init_output rnd sched (spawn q) in
  rs_pcs st !! i = Some Exited →
  (∀ ws, ws ∈ rs_states st → m_queue ws = [])
  ∧ (ev_task <$> rs_trace st) ++ tasks_held (rs_pcs st) ≡ₚ tasks_left (m_states q).
Proof.
  simpl. destruct (invariant_run sched) as ((Hshape & Hwalks) & _ & Hcons & _).
  intros Hpc. pose proof (Hwalks _ _ Hpc) as Hempty. simpl in Hempty.
  split; [done|]. unfold conserved in Hcons.
  by rewrite (tasks_left_empty _ Hempty), app_nil_r in Hcons.
Qed.

Lemma foldl_results_init (a : Output) (states : list WorkerState) :
  (∀ ws, ws ∈ states → m_result ws = init_output) →
  foldl (λ result ts, reducer result (m_result ts)) a states
  = foldl reducer a (replicate (length states) init_output).
Proof.
  revert a. induction states as [|ws states IH]; intros a Hall; simpl; [done|].
  rewrite (Hall ws) by apply list_elem_of_here.
  apply IH. intros ws' Hin. apply Hall. by apply list_elem_of_further.
Qed.

Lemma run_all_nothing (sched : list nat) (out : Output) :
  tasks_left (m_states q) = [] →
  run_all q init_output rnd sched = Some out →
  out = foldl reducer init_output (replicate (Z.to_nat n) init_output).
Proof.
  intros Hnone Hrun.
  destruct (run_all_sound _ _ Hrun) as (-> & Hlen & Hres & Hcons & _).
  rewrite Hnone in Hcons. apply Permutation_nil_r, fmap_nil_inv in Hcons.
  rewrite <- Hlen. apply foldl_results_init.
  intros ws [i Hi]%list_elem_of_lookup. rewrite (Hres _ _ Hi), Hcons. done.
Qed.

End RunProperties.

(** *** Reductions with an associative and commutative reducer *)
Section Reduction.

Variable r : Output → Output → Output.
Hypothesis r_assoc : ∀ a b c, r a (r b c) = r (r a b) c.
Hypothesis r_comm : ∀ a b, r a b = r b a.

Lemma foldl_assoc (a b : Output) (l : list Output) :
  r a (foldl r b l) = foldl r (r a b) l.
Proof.
  revert b. induction l as [|x l IH]; intros b; simpl; [done|].
  by rewrite IH, r_assoc.
Qed.

Lemma foldl_perm (a : Output) (l l' : list Output) :
  l ≡ₚ l' → foldl r a l = foldl r a l'.
Proof.
  intros Hperm. revert a.
  induction Hperm as [|x l l' _ IH|x y l|l l' l'' _ IH1 _ IH2]; intros a; simpl.
  - done.
  - apply IH.
  - f_equal. by rewrite <- !r_assoc, (r_comm y x).
  - by rewrite IH1.
Qed.

Lemma foldl_ext_in {A} (f g : Output → A → Output) (a : Output) (l : list A) :
  (∀ acc x, x ∈ l → f acc x = g acc x) → foldl f a l = foldl g a l.
Proof.
  revert a. induction l as [|x l IH]; intros a Hfg; simpl; [done|].
  rewrite Hfg by apply list_elem_of_here.
  apply IH. intros acc y Hy. apply Hfg. by apply list_elem_of_further.
Qed.

Lemma outputs_of_others (i j : nat) (trace : list Event) :
  j ≠ i →
  outputs_of j (filter (λ ev, ev_worker ev ≠ i) trace) = outputs_of j trace.
Proof.
  intros Hne. unfold outputs_of. f_equal. rewrite list_filter_filter.
  apply list_filter_iff. intros ev. split; [by intros [? _]|]. intros <-. done.
Qed.

(** The fold over the workers' own folds is a fold over all the outputs,
    with one more [init] for every worker. *)
Lemma foldl_workers (init a : Output) (workers : list nat) (trace : list Event) :
  NoDup workers →
  Forall (λ ev, ev_worker ev ∈ workers) trace →
  foldl (λ acc i, r acc (foldl r init (outputs_of i trace))) a workers
  = foldl r a (replicate (length workers) init ++ (ev_output <$> trace)).
Proof.
  intros Hnd. revert a trace. induction Hnd as [|i workers Hi Hnd IH]; intros a trace Hev.
  { destruct Hev as [|ev trace Hin _]; [done|]. by apply elem_of_nil in Hin. }
  simpl.
  rewrite (foldl_ext_in _
    (λ acc j, r acc (foldl r init
                (outputs_of j (filter (λ ev, ev_worker ev ≠ i) trace))))).
  2:{ intros acc j Hj. rewrite outputs_of_others; [done|]. by intros ->. }
  rewrite IH.
  2:{ apply Forall_forall. intros ev [Hne Hin]%list_elem_of_filter.
      rewrite Forall_forall in Hev. specialize (Hev _ Hin).
      apply elem_of_cons in Hev as [?|?]; done. }
  rewrite foldl_assoc, <- foldl_app.
  apply foldl_perm.
  assert (ev_output <$> trace
          ≡ₚ outputs_of i trace
             ++ (ev_output <$> filter (λ ev, ev_worker ev ≠ i) trace)) as ->.
  { unfold outputs_of. rewrite <- fmap_app. f_equiv. symmetry.
    apply filter_app_complement. }
  solve_Permutation.
Qed.

Lemma foldl_states (g : nat → Output) (a : Output) (k : nat) (states : list WorkerState) :
  (∀ i ws, states !! i = Some ws → m_result ws = g (k + i)%nat) →
  foldl (λ acc ts, r acc (m_result ts)) a states
  = foldl (λ acc i, r acc (g i)) a (seq k (length states)).
Proof.
  revert a k. induction states as [|ws states IH]; intros a k Hg; simpl; [done|].
  rewrite (Hg 0%nat ws) by done. rewrite Nat.add_0_r.
  apply IH. intros i ws' Hi. rewrite (Hg (S i) ws') by done. f_equal. lia.
Qed.

(** The value of a completed run, as one fold of the reducer. *)
Lemma join_reduction (init : Output) (states : list WorkerState) (trace : list Event)
    (l : list Output) :
  (∀ i ws, states !! i = Some ws →
     m_result ws = foldl r init (outputs_of i trace)) →
  Forall (λ ev, ev_worker ev < length states)%nat trace →
  l ≡ₚ (ev_output <$> trace) ++ replicate (length states) init →
  foldl (λ result ts, r result (m_result ts)) init states = foldl r init l.
Proof.
  intros Hres Hev Hl.
  rewrite (foldl_states (λ i, foldl r init (outputs_of i trace)) _ 0%nat) by done.
  rewrite foldl_workers.
  - apply foldl_perm. rewrite length_seq, Hl. solve_Permutation.
  - apply NoDup_seq.
  - eapply Forall_impl; [apply Hev|]. intros ev Hw. simpl in Hw.
    apply elem_of_seq. lia.
Qed.

End Reduction.

(** *** What submission leaves in the queues *)

Lemma add_item_states (task : Input) (q q' : WorkQueue) :
  add_item task q = Some q' →
  ∃ idx ws, m_states q !! idx = Some ws
            ∧ m_states q' = <[ idx := push task ws ]> (m_states q).
Proof.
  unfold add_item. case_decide; [done|].
  destruct (m_states q !! _) as [ws|] eqn:Hws; [|done]. intros [= <-]. simpl. eauto.
Qed.

Lemma add_items_tasks_left (tasks : list Input) (q q' : WorkQueue) :
  add_items tasks q = Some q' →
  tasks_left (m_states q') ≡ₚ tasks_left (m_states q) ++ tasks.
Proof.
  revert q. induction tasks as [|task tasks IH]; intros q; simpl.
  { intros [= <-]. by rewrite app_nil_r. }
  destruct (add_item task q) as [q1|] eqn:Hadd; [|done]. intros Hrest.
  rewrite (IH _ Hrest).
  apply add_item_states in Hadd as (idx & ws & Hws & ->).
  pose proof (tasks_left_insert _ _ _ (push task ws) Hws) as Hperm. simpl in Hperm.
  rewrite (Permutation_app_comm (tasks_left (m_states q))) in Hperm.
  rewrite <- app_assoc, (Permutation_app_comm _ (m_queue ws)) in Hperm.
  apply (inj (m_queue ws ++.)) in Hperm. rewrite Hperm. solve_Permutation.
Qed.

Lemma add_items_single (tasks : list Input) (q q' : WorkQueue) (ws : WorkerState) :
  m_states q = [ws] → add_items tasks q = Some q' →
  ∃ ws', m_states q' = [ws'] ∧ m_id ws' = m_id ws ∧ m_data ws' = m_data ws
         ∧ m_queue ws' = m_queue ws ++ tasks.
Proof.
  revert q ws. induction tasks as [|task tasks IH]; intros q ws Hq; simpl.
  { intros [= <-]. exists ws. by rewrite app_nil_r. }
  destruct (add_item task q) as [q1|] eqn:Hadd; [|done]. intros Hrest.
  apply add_item_states in Hadd as (idx & ws0 & Hws0 & Hq1).
  rewrite Hq in Hws0, Hq1. destruct idx as [|idx]; [|done]. simplify_eq/=.
  destruct (IH _ _ Hq1 Hrest) as (ws' & -> & Hid & Hd & Hqueue).
  exists ws'. split; [done|]. simpl in *. by rewrite Hqueue, <- app_assoc.
Qed.

(** *** The queue a caller builds, and its run *)

Lemma built_queue (mapper : Mapper) (reducer : Output → Output → Output)
    (data_initializer : Z → Data) (n : Z) (tasks : list Input) :
  1 ≤ n ≤ INT_MAX →
  ∃ q0 calls q,
    WorkQueue_new mapper reducer data_initializer n = Some (q0, calls)
    ∧ add_items tasks q0 = Some q
    ∧ m_num_threads q = n ∧ m_mapper q = mapper ∧ m_reducer q = reducer
    ∧ length (m_states q) = Z.to_nat n
    ∧ tasks_left (m_states q) ≡ₚ tasks
    ∧ (n = 1 → ∃ ws, m_states q = [ws] ∧ m_id ws = 0
                     ∧ m_data ws = data_initializer 0 ∧ m_queue ws = tasks).
Proof.
  intros Hn.
  assert (1 ≤ n < UINT_MOD) as Hn' by (unfold INT_MAX, UINT_MOD in *; lia).
  destruct (wf_queue_new mapper reducer data_initializer n Hn')
    as (q0 & calls & Hnew & Hwf0 & Hrr0 & Hn0 & Hm0 & Hr0 & Hst0).
  destruct (add_items_round_robin tasks q0 0 ltac:(lia) Hwf0 Hrr0)
    as (q & Hadd & Hnq & Hmq & Hrq & Hwf & _).
  exists q0, calls, q. split_and!; try done; try congruence.
  - destruct Hwf as (_ & -> & _). congruence.
  - rewrite (add_items_tasks_left _ _ _ Hadd).
    rewrite tasks_left_empty; [done|].
    rewrite Hst0. by intros ws (i & -> & _)%list_elem_of_fmap.
  - intros ->.
    destruct (add_items_single tasks q0 q (WorkerState_new 0 (data_initializer 0)))
      as (ws' & Hq & Hid & Hd & Hqueue); [by rewrite Hst0|done|].
    by exists ws'.
Qed.

Lemma foldl_replicate_neutral (r : Output → Output → Output) (init : Output) (k : nat) :
  (∀ x, r init x = x) → foldl r init (replicate k init) = init.
Proof.
  intros Hneutral. induction k as [|k IH]; simpl; [done|]. by rewrite Hneutral.
Qed.

(** C5: the run can always be completed, and a completed run returns the
    reducer folded from [init_output] over the workers' results, each of
    which is the reducer folded from [init_output] over the outputs of the
    tasks that worker consumed, in the order it consumed them; every
    submitted task is consumed once.  With one thread the result is
    [reducer init_output] of the fold from [init_output] over the mapper
    outputs in submission order. *)
Theorem run_all_folds (mapper : Mapper) (reducer : Output → Output → Output)
    (data_initializer : Z → Data) (n : Z) (tasks : list Input)
    (init_output : Output) (rnd : nat → nat → nat) :
  1 ≤ n ≤ INT_MAX →
  ∃ q0 calls q,
    WorkQueue_new mapper reducer data_initializer n = Some (q0, calls)
    ∧ add_items tasks q0 = Some q
    ∧ m_mapper q = mapper
    ∧ (∀ sched, ∃ sched' out, run_all q init_output rnd (sched ++ sched') = Some out)
    ∧ (∀ sched out, run_all q init_output rnd sched = Some out →
         let st := run_threads q init_output rnd sched (spawn q) in
         out = foldl (λ result ts, reducer result (m_result ts)) init_output (rs_states st)
         ∧ length (rs_states st) = Z.to_nat n
         ∧ (∀ i ws, rs_states st !! i = Some ws →
              m_result ws = foldl reducer init_output (outputs_of i (rs_trace st)))
         ∧ ev_task <$> rs_trace st ≡ₚ tasks
         ∧ Forall (λ ev, ∃ id data, (mapper id data (ev_task ev)).1 = ev_output ev)
                  (rs_trace st)
         ∧ (n = 1 →
            out = reducer init_output
                    (foldl reducer init_output
                       (seq_outputs q 0 (data_initializer 0) tasks)))).
Proof.
  intros Hn.
  destruct (built_queue mapper reducer data_initializer n tasks Hn)
    as (q0 & calls & q & Hnew & Hadd & Hnq & Hmq & Hrq & Hlen & Htasks & Hone).
  assert (1 ≤ m_num_threads q < UINT_MOD) as Hthreads
      by (unfold INT_MAX, UINT_MOD in *; lia).
  assert (length (m_states q) = Z.to_nat (m_num_threads q)) as Hstates by congruence.
  exists q0, calls, q. split_and!; try done.
  - intros sched. apply run_all_completes; [done..|lia].
  - intros sched out Hrun. simpl.
    destruct (run_all_sound q init_output rnd Hthreads Hstates _ _ Hrun)
      as (Hout & Hl & Hres & Hcons & Hev & _).
    rewrite Hrq in Hout, Hres. rewrite Hnq in Hl. split_and!; try done.
    + by rewrite Hcons.
    + eapply Forall_impl; [apply Hev|]. intros ev [_ Hmap]. by rewrite <- Hmq.
    + intros H1. destruct (Hone H1) as (ws & Hq & Hid & Hd & Hqueue).
      rewrite (run_all_single q init_output rnd Hthreads Hstates _ _ _ Hq Hrun).
      by rewrite Hrq, Hid, Hd, Hqueue.
Qed.

(** C4 (as the code has it): with an associative and commutative reducer a
    completed run returns the reduction, seeded with [init_output], of the
    mapper outputs of the submitted tasks together with one further
    [init_output] for every worker, in any order; when [init_output] is
    neutral for the reducer this is the reduction of the outputs alone. *)
Theorem run_all_reduction (mapper : Mapper) (reducer : Output → Output → Output)
    (data_initializer : Z → Data) (n : Z) (tasks : list Input)
    (init_output : Output) (rnd : nat → nat → nat) :
  (∀ a b c, reducer a (reducer b c) = reducer (reducer a b) c) →
  (∀ a b, reducer a b = reducer b a) →
  1 ≤ n ≤ INT_MAX →
  ∃ q0 calls q,
    WorkQueue_new mapper reducer data_initializer n = Some (q0, calls)
    ∧ add_items tasks q0 = Some q
    ∧ (∀ sched, ∃ sched' out, run_all q init_output rnd (sched ++ sched') = Some out)
    ∧ (∀ sched out, run_all q init_output rnd sched = Some out →
         ∃ events,
           ev_task <$> events ≡ₚ tasks
           ∧ Forall (λ ev, ∃ id data, (mapper id data (ev_task ev)).1 = ev_output ev) events
           ∧ (∀ l, l ≡ₚ (ev_output <$> events) ++ replicate (Z.to_nat n) init_output →
                   out = foldl reducer init_output l)
           ∧ ((∀ x, reducer init_output x = x) →
              ∀ l, l ≡ₚ ev_output <$> events → out = foldl reducer init_output l)).
Proof.
  intros Hassoc Hcomm Hn.
  destruct (built_queue mapper reducer data_initializer n tasks Hn)
    as (q0 & calls & q & Hnew & Hadd & Hnq & Hmq & Hrq & Hlen & Htasks & _).
  assert (1 ≤ m_num_threads q < UINT_MOD) as Hthreads
      by (unfold INT_MAX, UINT_MOD in *; lia).
  assert (length (m_states q) = Z.to_nat (m_num_threads q)) as Hstates by congruence.
  exists q0, calls, q. split_and!; try done.
  - intros sched. apply run_all_completes; [done..|lia].
  - intros sched out Hrun.
    destruct (run_all_sound q init_output rnd Hthreads Hstates _ _ Hrun)
      as (Hout & Hl & Hres & Hcons & Hev & _).
    set (st := run_threads q init_output rnd sched (spawn q)) in *.
    rewrite Hrq in Hout, Hres. rewrite Hnq in Hl.
    assert (∀ l, l ≡ₚ (ev_output <$> rs_trace st) ++ replicate (Z.to_nat n) init_output →
                 out = foldl reducer init_output l) as Hred.
    { intros l Hperm. rewrite Hout.
      apply (join_reduction reducer Hassoc Hcomm _ _ (rs_trace st)); [done| |by rewrite Hl].
      eapply Forall_impl; [apply Hev|]. intros ev [Hw _]. simpl. by rewrite Hl, <- Hnq. }
    exists (rs_trace st). split_and!; try done.
    + by rewrite Hcons.
    + eapply Forall_impl; [apply Hev|]. intros ev [_ Hmap]. by rewrite <- Hmq.
    + intros Hneutral l Hperm.
      rewrite (Hred (replicate (Z.to_nat n) init_output ++ l)).
      2:{ rewrite Hperm. solve_Permutation. }
      rewrite foldl_app. f_equal. by apply foldl_replicate_neutral.
Qed.

(** *** Further properties of the run *)

Lemma add_items_workers (tasks : list Input) (q q' : WorkQueue) (j : nat)
    (ws' : WorkerState) :
  add_items tasks q = Some q' → m_states q' !! j = Some ws' →
  ∃ ws, m_states q !! j = Some ws ∧ m_id ws' = m_id ws ∧ m_data ws' = m_data ws.
Proof.
  revert q. induction tasks as [|task tasks IH]; intros q; simpl.
  { intros [= <-] Hj. by exists ws'. }
  destruct (add_item task q) as [q1|] eqn:Hadd; [|done]. intros Hrest Hj.
  destruct (IH _ Hrest Hj) as (ws1 & Hws1 & -> & ->).
  apply add_item_states in Hadd as (idx & ws0 & Hws0 & Hq1). rewrite Hq1 in Hws1.
  apply list_lookup_insert_Some in Hws1 as [(<- & <- & _)|(_ & Hws1)].
  - by exists ws0.
  - by exists ws1.
Qed.

Lemma built_queue_facts (mapper : Mapper) (reducer : Output → Output → Output)
    (data_initializer : Z → Data) (n : Z) (tasks : list Input)
    (q0 q : WorkQueue) (calls : list Z) :
  1 ≤ n ≤ INT_MAX →
  WorkQueue_new mapper reducer data_initializer n = Some (q0, calls) →
  add_items tasks q0 = Some q →
  1 ≤ m_num_threads q < UINT_MOD
  ∧ length (m_states q) = Z.to_nat (m_num_threads q)
  ∧ m_num_threads q = n ∧ m_mapper q = mapper ∧ m_reducer q = reducer
  ∧ tasks_left (m_states q) ≡ₚ tasks
  ∧ ∀ i ws, m_states q !! i = Some ws →
      m_id ws = Z.of_nat i ∧ m_data ws = data_initializer (Z.of_nat i).
Proof.
  intros Hn Hnew Hadd.
  destruct (built_queue mapper reducer data_initializer n tasks Hn)
    as (q0' & calls' & q' & Hnew' & Hadd' & Hnq & Hmq & Hrq & Hlen & Htasks & _).
  rewrite Hnew in Hnew'. injection Hnew' as <- <-.
  rewrite Hadd in Hadd'. injection Hadd' as <-.
  split_and!; try done; try congruence;
    try (unfold INT_MAX, UINT_MOD in *; lia).
  intros i ws Hi.
  destruct (add_items_workers _ _ _ _ _ Hadd Hi) as (ws0 & Hws0 & -> & ->).
  assert (1 ≤ n < UINT_MOD) as Hn' by (unfold INT_MAX, UINT_MOD in *; lia).
  destruct (wf_queue_new mapper reducer data_initializer n Hn')
    as (q0' & calls' & Hnew' & _ & _ & _ & _ & _ & Hst0).
  rewrite Hnew in Hnew'. injection Hnew' as <- <-.
  rewrite Hst0 in Hws0. apply list_lookup_fmap_Some in Hws0 as (k & -> & Hk).
  unfold iota in Hk. apply list_lookup_fmap_Some in Hk as (k' & -> & Hk').
  apply lookup_seq in Hk' as [-> _]. done.
Qed.

(** X12: A run with nothing submitted completes, and returns [init_output]
    reduced with itself once for every worker. *)
Theorem run_all_without_tasks (mapper : Mapper) (reducer : Output → Output → Output)
    (data_initializer : Z → Data) (n : Z) (init_output : Output)
    (rnd : nat → nat → nat) :
  1 ≤ n ≤ INT_MAX →
  ∃ q calls,
    WorkQueue_new mapper reducer data_initializer n = Some (q, calls)
    ∧ (∀ sched, ∃ sched' out, run_all q init_output rnd (sched ++ sched') = Some out)
    ∧ (∀ sched out, run_all q init_output rnd sched = Some out →
         out = foldl reducer init_output (replicate (Z.to_nat n) init_output)).
Proof.
  intros Hn.
  destruct (built_queue mapper reducer data_initializer n [] Hn)
    as (q0 & calls & q & Hnew & [= <-] & _).
  destruct (built_queue_facts _ _ _ _ [] _ _ _ Hn Hnew eq_refl)
    as (Hthreads & Hstates & Hnq & _ & Hrq & Htasks & _).
  exists q0, calls. split; [done|]. split.
  - intros sched. apply run_all_completes; [done..|lia].
  - intros sched out Hrun. rewrite <- Hrq, <- Hnq.
    apply (run_all_nothing q0 init_output rnd Hthreads Hstates sched); [|done].
    by apply Permutation_nil_r.
Qed.

(** X13: A worker that starts a walk while its own queue holds a task pops
    the task at the front of its own queue and nothing else changes.  When
    a worker that holds a popped task takes its next step, whatever the
    other workers did in between, it consumes that task: the step appends
    the task to the trace as this worker's, with the output of the mapper on
    the worker's own data, restarts the walk, and leaves every other worker
    state as it was.  In particular two consecutive steps of a worker that
    starts a walk at a non-empty own queue consume the front task of that
    queue and touch no other worker state. *)
Theorem worker_takes_own_queue_first (mapper : Mapper)
    (reducer : Output → Output → Output) (data_initializer : Z → Data)
    (n : Z) (tasks : list Input) (init_output : Output) (rnd : nat → nat → nat) :
  1 ≤ n ≤ INT_MAX →
  ∃ q0 calls q,
    WorkQueue_new mapper reducer data_initializer n = Some (q0, calls)
    ∧ add_items tasks q0 = Some q
    ∧ (∀ sched i attempts ws task tl,
         let st := run_threads q init_output rnd sched (spawn q) in
         rs_pcs st !! i = Some (Walking attempts attempts) →
         rs_states st !! i = Some ws →
         m_queue ws = task :: tl →
         ∃ st' ws',
           thread_step q init_output rnd i st = Some st'
           ∧ rs_pcs st' !! i = Some (Holding attempts task)
           ∧ rs_trace st' = rs_trace st
           ∧ rs_states st' !! i = Some ws'
           ∧ m_queue ws' = tl ∧ m_id ws' = m_id ws
           ∧ m_data ws' = m_data ws ∧ m_result ws' = m_result ws
           ∧ ∀ j, j ≠ i → rs_states st' !! j = rs_states st !! j
                          ∧ rs_pcs st' !! j = rs_pcs st !! j)
    ∧ (∀ sched i attempts ws task,
         let st := run_threads q init_output rnd sched (spawn q) in
         rs_pcs st !! i = Some (Holding attempts task) →
         rs_states st !! i = Some ws →
         ∃ st' ws' out,
           thread_step q init_output rnd i st = Some st'
           ∧ rs_pcs st' !! i = Some (Walking attempts attempts)
           ∧ rs_trace st' = rs_trace st ++ [mkEvent i task out]
           ∧ mapper (m_id ws) (m_data ws) task = (out, m_data ws')
           ∧ rs_states st' !! i = Some ws'
           ∧ m_queue ws' = m_queue ws ∧ m_id ws' = m_id ws
           ∧ m_result ws' = reducer (m_result ws) out
           ∧ ∀ j, j ≠ i → rs_states st' !! j = rs_states st !! j
                          ∧ rs_pcs st' !! j = rs_pcs st !! j)
    ∧ (∀ sched i attempts ws task tl,
         let st := run_threads q init_output rnd sched (spawn q) in
         rs_pcs st !! i = Some (Walking attempts attempts) →
         rs_states st !! i = Some ws →
         m_queue ws = task :: tl →
         ∃ st1 st2 ws' out,
           thread_step q init_output rnd i st = Some st1
           ∧ thread_step q init_output rnd i st1 = Some st2
           ∧ rs_trace st2 = rs_trace st ++ [mkEvent i task out]
           ∧ mapper (m_id ws) (m_data ws) task = (out, m_data ws')
           ∧ rs_states st2 !! i = Some ws'
           ∧ m_queue ws' = tl
           ∧ ∀ j, j ≠ i → rs_states st2 !! j = rs_states st !! j).
Proof.
  intros Hn.
  destruct (built_queue mapper reducer data_initializer n tasks Hn)
    as (q0 & calls & q & Hnew & Hadd & _).
  destruct (built_queue_facts _ _ _ _ _ _ _ _ Hn Hnew Hadd)
    as (Hthreads & Hstates & _ & Hmq & Hrq & _).
  exists q0, calls, q. split; [done|]. split; [done|]. split_and!.
  - intros sched i attempts ws task tl st Hpc Hws Hq.
    eapply own_queue_pop_step; try done.
    by apply own_first_run.
  - intros sched i attempts ws task st Hpc Hws. rewrite <- Hmq, <- Hrq.
    by apply held_consume_step.
  - intros sched i attempts ws task tl st Hpc Hws Hq. rewrite <- Hmq.
    eapply own_queue_first_steps; try done.
    by apply own_first_run.
Qed.

(** X14: At every point of every schedule the state of worker [i] carries the
    id [i], and its data and the outputs it has produced are what the
    mapper gives when run, from [data_initializer(i)], over the tasks this
    worker consumed, in the order it consumed them: no other worker's tasks
    enter. *)
Theorem worker_data_is_private (mapper : Mapper)
    (reducer : Output → Output → Output) (data_initializer : Z → Data)
    (n : Z) (tasks : list Input) (init_output : Output) (rnd : nat → nat → nat) :
  1 ≤ n ≤ INT_MAX →
  ∃ q0 calls q,
    WorkQueue_new mapper reducer data_initializer n = Some (q0, calls)
    ∧ add_items tasks q0 = Some q
    ∧ m_mapper q = mapper
    ∧ ∀ sched i ws,
        let st := run_threads q init_output rnd sched (spawn q) in
        rs_states st !! i = Some ws →
        m_id ws = Z.of_nat i
        ∧ m_data ws = seq_data q (Z.of_nat i) (data_initializer (Z.of_nat i))
                        (tasks_of i (rs_trace st))
        ∧ outputs_of i (rs_trace st)
          = seq_outputs q (Z.of_nat i) (data_initializer (Z.of_nat i))
              (tasks_of i (rs_trace st)).
Proof.
  intros Hn.
  destruct (built_queue mapper reducer data_initializer n tasks Hn)
    as (q0 & calls & q & Hnew & Hadd & _).
  destruct (built_queue_facts _ _ _ _ _ _ _ _ Hn Hnew Hadd)
    as (Hthreads & Hstates & _ & Hmq & _ & _ & Hids).
  exists q0, calls, q. split_and!; try done.
  intros sched i ws st Hws.
  by apply (isolated_run q init_output rnd
              (λ i, data_initializer (Z.of_nat i)) sched Hids i ws).
Qed.

(** X15: No worker returns while a queue holds a task: at every point of
    every schedule at which some worker has returned, every queue is empty,
    and the tasks consumed so far together with the tasks that workers have
    popped and not yet consumed are the submitted tasks, each once. *)
Theorem no_return_before_drained (mapper : Mapper)
    (reducer : Output → Output → Output) (data_initializer : Z → Data)
    (n : Z) (tasks : list Input) (init_output : Output) (rnd : nat → nat → nat) :
  1 ≤ n ≤ INT_MAX →
  ∃ q0 calls q,
    WorkQueue_new mapper reducer data_initializer n = Some (q0, calls)
    ∧ add_items tasks q0 = Some q
    ∧ ∀ sched i,
        let st := run_threads q init_output rnd sched (spawn q) in
        rs_pcs st !! i = Some Exited →
        (∀ ws, ws ∈ rs_states st → m_queue ws = [])
        ∧ (ev_task <$> rs_trace st) ++ tasks_held (rs_pcs st) ≡ₚ tasks.
Proof.
  intros Hn.
  destruct (built_queue mapper reducer data_initializer n tasks Hn)
    as (q0 & calls & q & Hnew & Hadd & _).
  destruct (built_queue_facts _ _ _ _ _ _ _ _ Hn Hnew Hadd)
    as (Hthreads & Hstates & _ & _ & _ & Htasks & _).
  exists q0, calls, q. split; [done|]. split; [done|].
  intros sched i st Hpc.
  destruct (exited_drained q init_output rnd Hthreads Hstates sched i Hpc) as [He Ht].
  split; [done|]. by rewrite <- Htasks.
Qed.

End WorkQueue.

Arguments mkWorkerState {_ _ _}.
Arguments WorkerState_new {_ _ _}.
Arguments m_queue {_ _ _}.
Arguments m_result {_ _ _}.
Arguments push {_ _ _}.
Arguments mkEvent {_ _}.
Arguments ev_task {_ _}.
Arguments ev_output {_ _}.
Arguments WorkQueue_new {_ _ _}.
Arguments m_mapper {_ _ _}.
Arguments m_states {_ _ _}.
Arguments m_insert_idx {_ _ _}.
Arguments add_item {_ _ _}.
Arguments add_items {_ _ _}.
Arguments rs_states {_ _ _}.
Arguments rs_trace {_ _ _}.
Arguments spawn {_ _ _}.
Arguments run_threads {_ _ _}.
Arguments run_all {_ _ _}.
Arguments outputs_of {_ _}.
Arguments seq_outputs {_ _ _}.

Arguments m_id {_ _ _}.
Arguments m_data {_ _ _}.
Arguments pop_task {_ _ _}.
Arguments push_tasks {_ _ _}.
Arguments pop_tasks {_ _ _}.
Arguments rs_pcs {_ _ _}.
Arguments thread_step {_ _ _}.
Arguments tasks_of {_ _}.
Arguments seq_data {_ _ _}.
Arguments Spawned {_}.
Arguments Walking {_}.
Arguments Holding {_}.
Arguments Exited {_}.
Arguments tasks_held {_}.

(** ** [workqueue_mapreduce] *)
Section MapReduce.

Variables Input Output : Type.
Variable Output_default : Output.

(** [workqueue_mapreduce(mapper, reducer, num_threads)]: no worker data
    ([std::nullptr_t]); the mapper ignores the worker state. *)
Definition workqueue_mapreduce (mapper : Input → Output)
    (reducer : Output → Output → Output) (num_threads : Z)
  : option (WorkQueue Input unit Output * list Z) :=
  WorkQueue_new Output_default (λ _ data a, (mapper a, data)) reducer (λ _, tt)
                num_threads.

(** X16: With an associative and commutative reducer the value a map-reduce
    queue returns does not depend on the schedule or on the random
    engines: it is the reduction from [init_output] of one [init_output]
    per worker and the mapped tasks; when [init_output] is neutral it is
    the sequential map-reduce of the tasks, whatever the number of
    workers. *)
Theorem mapreduce_schedule_independent (mapper : Input → Output)
    (reducer : Output → Output → Output) (n : Z) (tasks : list Input)
    (init_output : Output) :
  (∀ a b c, reducer a (reducer b c) = reducer (reducer a b) c) →
  (∀ a b, reducer a b = reducer b a) →
  1 ≤ n ≤ INT_MAX →
  ∃ q0 calls q,
    workqueue_mapreduce mapper reducer n = Some (q0, calls)
    ∧ add_items tasks q0 = Some q
    ∧ (∀ rnd sched, ∃ sched' out, run_all q init_output rnd (sched ++ sched') = Some out)
    ∧ (∀ rnd sched out, run_all q init_output rnd sched = Some out →
         out = foldl reducer init_output
                 (replicate (Z.to_nat n) init_output ++ (mapper <$> tasks))
         ∧ ((∀ x, reducer init_output x = x) →
            out = foldl reducer init_output (mapper <$> tasks))).
Proof.
  intros Hassoc Hcomm Hn. unfold workqueue_mapreduce.
  destruct (built_queue Input unit Output Output_default
              (λ _ data a, (mapper a, data)) reducer (λ _, tt) n tasks Hn)
    as (q0 & calls & q & Hnew & Hadd & _).
  destruct (built_queue_facts _ _ _ _ _ _ _ _ _ _ _ _ Hn Hnew Hadd)
    as (Hthreads & Hstates & Hnq & Hmq & Hrq & Htasks & _).
  exists q0, calls, q. split; [done|]. split; [done|]. split.
  { intros rnd sched. apply run_all_completes; [done..|lia]. }
  intros rnd sched out Hrun.
  destruct (run_all_sound _ _ _ q init_output rnd Hthreads Hstates _ _ Hrun)
    as (Hout & Hl & Hres & Hcons & Hev & _). simpl in *.
  set (st := run_threads q init_output rnd sched (spawn q)) in *.
  assert (ev_output <$> rs_trace st ≡ₚ mapper <$> tasks) as Houts.
  { rewrite <- Htasks, <- Hcons, <- list_fmap_compose.
    assert (ev_output <$> rs_trace st = (mapper ∘ ev_task) <$> rs_trace st) as ->; [|done].
    apply list_eq. intros k. rewrite !list_lookup_fmap.
    destruct (rs_trace st !! k) as [ev|] eqn:Hk; [|done]. simpl. f_equal.
    unfold events_ok in Hev. rewrite Forall_lookup in Hev.
    destruct (Hev _ _ Hk) as [_ (id & data & <-)]. by rewrite Hmq. }
  assert (out = foldl reducer init_output
                  (replicate (Z.to_nat n) init_output ++ (mapper <$> tasks))) as Hval.
  { rewrite Hout, Hrq.
    apply (join_reduction _ _ _ reducer Hassoc Hcomm _ _ (rs_trace st)).
    - by rewrite <- Hrq.
    - eapply Forall_impl; [apply Hev|]. intros ev [Hw _]. simpl. by rewrite Hl.
    - rewrite Hl, Hnq, Houts. apply Permutation_app_comm. }
  split; [done|]. intros Hneutral. rewrite Hval, foldl_app. f_equal.
  by apply foldl_replicate_neutral.
Qed.

End MapReduce.

Arguments workqueue_mapreduce {_ _}.

(** ** Concrete runs *)

(** Squares summed up: tasks are integers, there is no worker data. *)
Definition square : Mapper Z unit Z := λ _ _ x, (x * x, tt).
Definition identity : Mapper Z unit Z := λ _ _ x, (x, tt).
Definition no_data : Z → unit := λ _, tt.
Definition engine : nat → nat → nat := λ i p, (i + p)%nat.

Lemma WorkQueue_new_witness :
  WorkQueue_new 0 square Z.add no_data 0 = None
  ∧ ∃ q calls,
      WorkQueue_new 0 square Z.add no_data 3 = Some (q, calls)
      ∧ length (m_states q) = Z.to_nat 3
      ∧ (∀ i, 0 ≤ i < 3 →
           m_states q !! Z.to_nat i = Some (WorkerState_new 0 i (no_data i)))
      ∧ calls = iota (Z.to_nat 3)
      ∧ NoDup calls
      ∧ m_num_threads _ _ _ q = 3 ∧ m_insert_idx q = 0.
Proof.
  destruct (WorkQueue_new_spec Z unit Z 0 square Z.add no_data) as [Hfail Hok].
  split; [apply Hfail; lia|apply Hok; lia].
Defined.

Lemma add_item_witness :
  ∃ q0 calls q,
    WorkQueue_new 0 square Z.add no_data 3 = Some (q0, calls)
    ∧ add_items [10; 20; 30; 40; 50] q0 = Some q
    ∧ m_insert_idx q = Z.of_nat 5 `mod` 3
    ∧ (∀ t task, [10; 20; 30; 40; 50] !! t = Some task →
         ∃ ws, m_states q !! Z.to_nat ((Z.of_nat t + 1) `mod` 3) = Some ws
               ∧ m_queue ws !! (t / Z.to_nat 3)%nat = Some task)
    ∧ (∀ j ws, m_states q !! j = Some ws →
         (∀ p, m_queue ws !! p
               = [10; 20; 30; 40; 50] !! Z.to_nat ((Z.of_nat j - 1) `mod` 3 + Z.of_nat p * 3))
         ∧ Z.of_nat (length (m_queue ws))
           = Z.of_nat 5 `div` 3
             + (if decide (1 ≤ Z.of_nat j ≤ Z.of_nat 5 `mod` 3) then 1 else 0)
         ∧ Z.of_nat (length (m_queue ws)) ≤ (Z.of_nat 5 + 3 - 1) `div` 3)
    ∧ (∀ task, ∃ q' ws ws',
         add_item task q = Some q'
         ∧ m_insert_idx q' = (Z.of_nat 5 + 1) `mod` 3
         ∧ m_states q !! Z.to_nat (m_insert_idx q') = Some ws
         ∧ m_states q' = <[ Z.to_nat (m_insert_idx q') := push task ws ]> (m_states q)
         ∧ m_states q' !! Z.to_nat (m_insert_idx q') = Some ws'
         ∧ m_queue ws' = m_queue ws ++ [task]
         ∧ m_id ws' = m_id ws ∧ m_data ws' = m_data ws ∧ m_result ws' = m_result ws
         ∧ ∀ j, j ≠ Z.to_nat (m_insert_idx q') → m_states q' !! j = m_states q !! j).
Proof.
  apply (add_item_distributes_round_robin Z unit Z 0 square Z.add no_data 3
           [10; 20; 30; 40; 50]).
  unfold UINT_MOD. lia.
Defined.

(** Five submissions to three workers: worker 0 gets the third, worker 1 the
    first and the fourth, worker 2 the second and the fifth. *)
Example add_items_run :
  ∃ q0 calls q,
    WorkQueue_new 0 square Z.add no_data 3 = Some (q0, calls)
    ∧ add_items [10; 20; 30; 40; 50] q0 = Some q
    ∧ m_queue <$> m_states q = [[30]; [10; 40]; [20; 50]].
Proof. eexists _, _, _. split; [reflexivity|]. split; reflexivity. Qed.

Lemma run_all_folds_witness :
  ∃ q0 calls q,
    WorkQueue_new 0 square Z.add no_data 2 = Some (q0, calls)
    ∧ add_items [1; 2; 3] q0 = Some q
    ∧ m_mapper q = square
    ∧ (∀ sched, ∃ sched' out, run_all q 0 engine (sched ++ sched') = Some out)
    ∧ (∀ sched out, run_all q 0 engine sched = Some out →
         let st := run_threads q 0 engine sched (spawn q) in
         out = foldl (λ result ts, Z.add result (m_result ts)) 0 (rs_states st)
         ∧ length (rs_states st) = Z.to_nat 2
         ∧ (∀ i ws, rs_states st !! i = Some ws →
              m_result ws = foldl Z.add 0 (outputs_of i (rs_trace st)))
         ∧ ev_task <$> rs_trace st ≡ₚ [1; 2; 3]
         ∧ Forall (λ ev, ∃ id data, (square id data (ev_task ev)).1 = ev_output ev)
                  (rs_trace st)
         ∧ (2 = 1 →
            out = Z.add 0 (foldl Z.add 0 (seq_outputs q 0 (no_data 0) [1; 2; 3])))).
Proof.
  apply (run_all_folds Z unit Z 0 square Z.add no_data 2 [1; 2; 3] 0 engine).
  unfold INT_MAX. lia.
Defined.

Lemma run_all_reduction_witness :
  ∃ q0 calls q,
    WorkQueue_new 0 square Z.add no_data 2 = Some (q0, calls)
    ∧ add_items [1; 2; 3] q0 = Some q
    ∧ (∀ sched, ∃ sched' out, run_all q 5 engine (sched ++ sched') = Some out)
    ∧ (∀ sched out, run_all q 5 engine sched = Some out →
         ∃ events,
           ev_task <$> events ≡ₚ [1; 2; 3]
           ∧ Forall (λ ev, ∃ id data, (square id data (ev_task ev)).1 = ev_output ev) events
           ∧ (∀ l, l ≡ₚ (ev_output <$> events) ++ replicate (Z.to_nat 2) 5 →
                   out = foldl Z.add 5 l)
           ∧ ((∀ x, Z.add 5 x = x) →
              ∀ l, l ≡ₚ ev_output <$> events → out = foldl Z.add 5 l)).
Proof.
  apply (run_all_reduction Z unit Z 0 square Z.add no_data 2 [1; 2; 3] 5 engine).
  - intros a b c. lia.
  - intros a b. lia.
  - unfold INT_MAX. lia.
Defined.

(** The queue of the runs below: [threads] workers, the tasks submitted in
    order. *)
Definition queue_of (mapper : Mapper Z unit Z) (threads : Z) (tasks : list Z)
  : option (WorkQueue Z unit Z) :=
  match WorkQueue_new 0 mapper Z.add no_data threads with
  | Some (q0, _) => add_items tasks q0
  | None => None
  end.

(** Two workers, three tasks, initial output 5: the squares sum to 14 and
    the initial output is counted three times. *)
Example run_all_two_workers :
  (q ← queue_of square 2 [1; 2; 3];
   run_all q 5 engine
     [0; 1; 1; 0; 0; 1; 0; 1; 0; 1; 0; 1; 0; 1; 0; 1; 0; 1; 0; 1]%nat) = Some 29.
Proof. vm_compute. reflexivity. Qed.

(** While a worker has not returned there is no result yet. *)
Example run_all_unfinished :
  (q ← queue_of square 2 [1; 2; 3]; run_all q 5 engine [0; 1; 1; 0]%nat) = None.
Proof. vm_compute. reflexivity. Qed.

(** C4 as stated fails: addition is associative and commutative, one worker
    is given the single task 10 and the initial output 1; the run returns
    12, which is no reduction of the per-task outputs [[10]], whether seeded
    with the initial output (11) or not (10). *)
Lemma run_all_counts_init_per_worker :
  (∀ a b c : Z, a + (b + c) = a + b + c)
  ∧ (∀ a b : Z, a + b = b + a)
  ∧ (q ← queue_of identity 1 [10]; run_all q 1 engine [0; 0; 0; 0; 0]%nat) = Some 12
  ∧ ¬ ∃ l, l ≡ₚ [10]
           ∧ (12 = foldl Z.add 1 l
              ∨ Some 12 = match l with
                          | [] => None
                          | x :: l' => Some (foldl Z.add x l')
                          end).
Proof.
  split; [intros; lia|]. split; [intros; lia|]. split; [vm_compute; reflexivity|].
  intros (l & ->%Permutation_singleton_r & [H|H]); simpl in H; [lia|congruence].
Qed.

(** ** Further concrete runs *)

(** A mapper with worker data: the data counts the tasks of the worker and
    the output adds the count to the task. *)
Definition counting : Mapper Z Z Z := λ _ data x, (x + data, data + 1).
Definition hundreds : Z → Z := λ i, 100 * i.

Lemma add_items_deals_in_order_witness :
  ∃ q0 calls q,
    WorkQueue_new 0 square Z.add no_data 3 = Some (q0, calls)
    ∧ add_items [10; 20; 30; 40; 50] q0 = Some q
    ∧ ∀ j ws p, m_states q !! j = Some ws →
        m_queue ws !! p
        = [10; 20; 30; 40; 50] !! Z.to_nat ((Z.of_nat j - 1) `mod` 3 + Z.of_nat p * 3).
Proof.
  apply (add_items_deals_in_order Z unit Z 0 square Z.add no_data 3 [10; 20; 30; 40; 50]).
  unfold UINT_MOD. lia.
Defined.

Lemma run_all_without_tasks_witness :
  ∃ q calls,
    WorkQueue_new 0 square Z.add no_data 3 = Some (q, calls)
    ∧ (∀ sched, ∃ sched' out, run_all q 5 engine (sched ++ sched') = Some out)
    ∧ (∀ sched out, run_all q 5 engine sched = Some out →
         out = foldl Z.add 5 (replicate (Z.to_nat 3) 5)).
Proof.
  apply (run_all_without_tasks Z unit Z 0 square Z.add no_data 3 5 engine).
  unfold INT_MAX. lia.
Defined.

Example run_all_empty_run :
  (q ← queue_of square 3 [];
   run_all q 5 engine [0; 0; 1; 1; 2; 2; 0; 1; 2; 0; 1; 2; 0; 1; 2]%nat) = Some 20.
Proof. vm_compute. reflexivity. Qed.

Lemma worker_takes_own_queue_first_witness :
  ∃ q0 calls q,
    WorkQueue_new 0 counting Z.add hundreds 2 = Some (q0, calls)
    ∧ add_items [1; 2; 3] q0 = Some q
    ∧ (∀ sched i attempts ws task tl,
         let st := run_threads q 0 engine sched (spawn q) in
         rs_pcs st !! i = Some (Walking attempts attempts) →
         rs_states st !! i = Some ws →
         m_queue ws = task :: tl →
         ∃ st' ws',
           thread_step q 0 engine i st = Some st'
           ∧ rs_pcs st' !! i = Some (Holding attempts task)
           ∧ rs_trace st' = rs_trace st
           ∧ rs_states st' !! i = Some ws'
           ∧ m_queue ws' = tl ∧ m_id ws' = m_id ws
           ∧ m_data ws' = m_data ws ∧ m_result ws' = m_result ws
           ∧ ∀ j, j ≠ i → rs_states st' !! j = rs_states st !! j
                          ∧ rs_pcs st' !! j = rs_pcs st !! j)
    ∧ (∀ sched i attempts ws task,
         let st := run_threads q 0 engine sched (spawn q) in
         rs_pcs st !! i = Some (Holding attempts task) →
         rs_states st !! i = Some ws →
         ∃ st' ws' out,
           thread_step q 0 engine i st = Some st'
           ∧ rs_pcs st' !! i = Some (Walking attempts attempts)
           ∧ rs_trace st' = rs_trace st ++ [mkEvent i task out]
           ∧ counting (m_id ws) (m_data ws) task = (out, m_data ws')
           ∧ rs_states st' !! i = Some ws'
           ∧ m_queue ws' = m_queue ws ∧ m_id ws' = m_id ws
           ∧ m_result ws' = Z.add (m_result ws) out
           ∧ ∀ j, j ≠ i → rs_states st' !! j = rs_states st !! j
                          ∧ rs_pcs st' !! j = rs_pcs st !! j)
    ∧ (∀ sched i attempts ws task tl,
         let st := run_threads q 0 engine sched (spawn q) in
         rs_pcs st !! i = Some (Walking attempts attempts) →
         rs_states st !! i = Some ws →
         m_queue ws = task :: tl →
         ∃ st1 st2 ws' out,
           thread_step q 0 engine i st = Some st1
           ∧ thread_step q 0 engine i st1 = Some st2
           ∧ rs_trace st2 = rs_trace st ++ [mkEvent i task out]
           ∧ counting (m_id ws) (m_data ws) task = (out, m_data ws')
           ∧ rs_states st2 !! i = Some ws'
           ∧ m_queue ws' = tl
           ∧ ∀ j, j ≠ i → rs_states st2 !! j = rs_states st !! j).
Proof.
  apply (worker_takes_own_queue_first Z Z Z 0 counting Z.add hundreds 2 [1; 2; 3] 0 engine).
  unfold INT_MAX. lia.
Defined.

(** Worker 1 holds the tasks 1 and 3 and worker 0 the task 2.  Once both
    have started, a step of worker 1 pops task 1 from its own queue
    although worker 0's queue is not empty, and its next step consumes it. *)
Example own_queue_first_run :
  (q ← queue_of square 2 [1; 2; 3];
   let st := run_threads q 0 engine [0; 1; 1]%nat (spawn q) in
   Some (m_queue <$> rs_states st, rs_pcs st, ev_task <$> rs_trace st))
  = Some ([[2]; [3]], [Walking [0; 1] [0; 1]; Holding [1; 0] 1], [])
  ∧ (q ← queue_of square 2 [1; 2; 3];
     let st := run_threads q 0 engine [0; 1; 1; 1]%nat (spawn q) in
     Some (m_queue <$> rs_states st, ev_worker _ _ <$> rs_trace st,
           ev_task <$> rs_trace st))
    = Some ([[2]; [3]], [1%nat], [1]).
Proof. split; vm_compute; reflexivity. Qed.

Lemma worker_data_is_private_witness :
  ∃ q0 calls q,
    WorkQueue_new 0 counting Z.add hundreds 2 = Some (q0, calls)
    ∧ add_items [1; 2; 3] q0 = Some q
    ∧ m_mapper q = counting
    ∧ ∀ sched i ws,
        let st := run_threads q 0 engine sched (spawn q) in
        rs_states st !! i = Some ws →
        m_id ws = Z.of_nat i
        ∧ m_data ws = seq_data q (Z.of_nat i) (hundreds (Z.of_nat i))
                        (tasks_of i (rs_trace st))
        ∧ outputs_of i (rs_trace st)
          = seq_outputs q (Z.of_nat i) (hundreds (Z.of_nat i))
              (tasks_of i (rs_trace st)).
Proof.
  apply (worker_data_is_private Z Z Z 0 counting Z.add hundreds 2 [1; 2; 3] 0 engine).
  unfold INT_MAX. lia.
Defined.

(** Worker 1 (data from 100) consumes its tasks 1 and 3, then worker 0
    (data from 0) its task 2: the outputs are 101, 104 and 2. *)
Example private_data_run :
  (match WorkQueue_new 0 counting Z.add hundreds 2 with
   | Some (q0, _) =>
       q ← add_items [1; 2; 3] q0;
       let st := run_threads q 0 engine [0; 1; 1; 1; 1; 1; 0; 0]%nat (spawn q) in
       Some (m_data <$> rs_states st, ev_output <$> rs_trace st)
   | None => None
   end)
  = Some ([1; 102], [101; 104; 2]).
Proof. vm_compute. reflexivity. Qed.

Lemma no_return_before_drained_witness :
  ∃ q0 calls q,
    WorkQueue_new 0 square Z.add no_data 2 = Some (q0, calls)
    ∧ add_items [1; 2; 3] q0 = Some q
    ∧ ∀ sched i,
        let st := run_threads q 0 engine sched (spawn q) in
        rs_pcs st !! i = Some Exited →
        (∀ ws, ws ∈ rs_states st → m_queue ws = [])
        ∧ (ev_task <$> rs_trace st) ++ tasks_held (rs_pcs st) ≡ₚ [1; 2; 3].
Proof.
  apply (no_return_before_drained Z unit Z 0 square Z.add no_data 2 [1; 2; 3] 0 engine).
  unfold INT_MAX. lia.
Defined.

(** Worker 0 alone runs to its return: it has consumed its own task and
    stolen both tasks of worker 1, which has not started. *)
Example stealing_run :
  (q ← queue_of square 2 [1; 2; 3];
   let st := run_threads q 0 engine [0; 0; 0; 0; 0; 0; 0; 0; 0; 0; 0; 0]%nat (spawn q) in
   Some (rs_pcs st !! 0%nat, m_queue <$> rs_states st,
         ev_worker _ _ <$> rs_trace st, ev_task <$> rs_trace st))
  = Some (Some Exited, [[]; []], [0; 0; 0]%nat, [2; 1; 3]).
Proof. vm_compute. reflexivity. Qed.

(** Worker 1 starts and pops task 1 from its own queue; before it consumes
    the task, worker 0 consumes the tasks 2 and 3, finds both queues empty
    and returns.  Worker 0 has returned while task 1 is popped and not yet
    consumed. *)
Example return_before_consume_run :
  (q ← queue_of square 2 [1; 2; 3];
   let st := run_threads q 0 engine [1; 1; 0; 0; 0; 0; 0; 0; 0; 0; 0; 0]%nat (spawn q) in
   Some (rs_pcs st, m_queue <$> rs_states st, ev_task <$> rs_trace st,
         tasks_held (rs_pcs st)))
  = Some ([Exited; Holding [1; 0] 1], [[]; []], [2; 3], [1]).
Proof. vm_compute. reflexivity. Qed.

Lemma mapreduce_schedule_independent_witness :
  ∃ q0 calls q,
    workqueue_mapreduce 0 (λ x, x * x) Z.add 2 = Some (q0, calls)
    ∧ add_items [1; 2; 3] q0 = Some q
    ∧ (∀ rnd sched, ∃ sched' out, run_all q 0 rnd (sched ++ sched') = Some out)
    ∧ (∀ rnd sched out, run_all q 0 rnd sched = Some out →
         out = foldl Z.add 0 (replicate (Z.to_nat 2) 0 ++ ((λ x, x * x) <$> [1; 2; 3]))
         ∧ ((∀ x, Z.add 0 x = x) →
            out = foldl Z.add 0 ((λ x, x * x) <$> [1; 2; 3]))).
Proof.
  apply (mapreduce_schedule_independent Z Z 0 (λ x, x * x) Z.add 2 [1; 2; 3] 0).
  - intros a b c. lia.
  - intros a b. lia.
  - unfold INT_MAX. lia.
Defined.

(** The same tasks under one worker and under three, with another engine
    and another schedule: 14 both times. *)
Example mapreduce_runs :
  (match workqueue_mapreduce 0 (λ x, x * x) Z.add 1 with
   | Some (q0, _) =>
       q ← add_items [1; 2; 3] q0; run_all q 0 engine [0; 0; 0; 0; 0; 0; 0; 0; 0]%nat
   | None => None
   end) = Some 14
  ∧ (match workqueue_mapreduce 0 (λ x, x * x) Z.add 3 with
     | Some (q0, _) =>
         q ← add_items [1; 2; 3] q0;
         run_all q 0 (λ i p, (2 * i + 3 * p)%nat)
                 [2; 2; 2; 2; 1; 0; 1; 0; 2; 2; 1; 0; 1; 0; 1; 0; 2; 2; 2; 2; 2; 2; 0; 0;
                  1; 1; 0; 0; 1; 1; 0; 0]%nat
     | None => None
     end) = Some 14.
Proof. split; vm_compute; reflexivity. Qed.

(** Three pushes behind a queue that holds 7: four pops deliver 7, 1, 2, 3
    and the fifth finds the queue empty. *)
Example push_pop_run :
  (pop_tasks 5 (push_tasks [1; 2; 3] (mkWorkerState 0 [7] tt 0))).1 = [7; 1; 2; 3].
Proof. reflexivity. Qed.

End work_queue.

(** * The [redexdump] driver script *)
Module redexdump.

Section Script.

(** The surroundings of the script: the output of [which redexdump]
    ([None] when the command fails, which [check_output] reports by raising),
    the method [rstrip], [os.path.isfile], the two paths joined to
    [redex_path], and the unpacking of the apk into its dex files ([None]
    when one of its steps raises). *)
Variable which : option string.
Variable rstrip : string → string.
Variable isfile : string → bool.
Variables local_binary buck_binary : string.
Variable unpack : string → option (list string).

(** [redexdump_binary()]; [None]: [Exception('Cannot locate redexdump')]. *)
Definition redexdump_binary : option string :=
  match which with
  | Some binary => Some (rstrip binary)
  | None =>
      if isfile local_binary then Some local_binary
      else if isfile buck_binary then Some buck_binary
      else None
  end.

(** The loop over [sys.argv[1:]]. *)
Definition parse_args (args : list string) : option string * list string :=
  foldl (λ '(apk, options) arg,
           if negb (String.prefix "--"%string arg) then (Some arg, options)
           else (apk, options ++ [arg]))
        (None, []) args.

Inductive Outcome :=
| SysExit (message : string)
| Raised
| Called (command : list string).

(** The body under [if __name__ == '__main__']. *)
Definition main (args : list string) : Outcome :=
  let '(apk, options) := parse_args args in
  match apk with
  | None => SysExit "No apk given"%string
  | Some apk =>
      match unpack apk with
      | None => Raised
      | Some dexen =>
          match redexdump_binary with
          | None => Raised
          | Some binary => Called ([binary] ++ options ++ dexen)
          end
      end
  end.

Definition is_option (arg : string) : Prop := String.prefix "--"%string arg = true.
Definition is_positional (arg : string) : Prop := String.prefix "--"%string arg = false.

Lemma parse_args_spec (args : list string) :
  parse_args args = (last (filter is_positional args), filter is_option args).
Proof.
  unfold parse_args. induction args as [|arg args IH] using rev_ind; [done|].
  rewrite foldl_app, IH. simpl. rewrite !filter_app.
  destruct (String.prefix "--"%string arg) eqn:Hp; simpl.
  - rewrite (filter_cons_False is_positional), (filter_cons_True is_option)
      by (unfold is_positional, is_option; congruence).
    by rewrite !filter_nil, app_nil_r.
  - rewrite (filter_cons_True is_positional), (filter_cons_False is_option)
      by (unfold is_positional, is_option; congruence).
    by rewrite !filter_nil, last_snoc, app_nil_r.
Qed.

(** X17: The script exits with 'No apk given' exactly when every argument
    starts with [--]; otherwise the apk is the last argument that does not,
    earlier ones are dropped, and [redexdump] is called with the options in
    the order they were given, followed by the dex files. *)
Theorem main_outcome (args : list string) :
  (main args = SysExit "No apk given"%string ↔ Forall is_option args)
  ∧ (∀ apk dexen binary,
       last (filter is_positional args) = Some apk →
       unpack apk = Some dexen →
       redexdump_binary = Some binary →
       main args = Called (binary :: filter is_option args ++ dexen)).
Proof.
  unfold main. rewrite parse_args_spec. split.
  - destruct (last (filter is_positional args)) as [apk|] eqn:Hlast.
    + split.
      * destruct (unpack apk); [destruct redexdump_binary|]; done.
      * intros Hall. exfalso.
        assert (apk ∈ filter is_positional args) as Hin.
        { destruct (filter is_positional args) as [|x l] using rev_ind; [done|].
          rewrite last_snoc in Hlast. injection Hlast as ->. set_solver. }
        apply list_elem_of_filter in Hin as [Hpos Hin].
        rewrite Forall_forall in Hall. specialize (Hall _ Hin).
        unfold is_option, is_positional in *. congruence.
    + split; [|done]. intros _. apply last_None in Hlast.
      apply Forall_forall. intros arg Hin.
      destruct (String.prefix "--"%string arg) eqn:Hp; [done|].
      assert (arg ∈ filter is_positional args) as Hin' by (by apply list_elem_of_filter).
      rewrite Hlast in Hin'. by apply elem_of_nil in Hin'.
  - intros apk dexen binary -> -> ->. done.
Qed.

End Script.

(** Two apks and two options: the second apk is the one unpacked, the
    first is dropped. *)
Example main_run :
  main (Some "/usr/bin/redexdump "%string) (λ _, "/usr/bin/redexdump"%string) (λ _, false) "a"%string "b"%string
       (λ apk, Some [(apk ++ "/classes.dex")%string])
       ["--all"%string; "one.apk"%string; "--string"%string; "two.apk"%string]
  = Called ["/usr/bin/redexdump"%string; "--all"%string; "--string"%string; "two.apk/classes.dex"%string].
Proof. reflexivity. Qed.

Lemma main_outcome_witness :
  main (Some "/usr/bin/redexdump "%string) (λ _, "/usr/bin/redexdump"%string) (λ _, false) "a"%string "b"%string
       (λ apk, Some [(apk ++ "/classes.dex")%string])
       ["one.apk"%string; "--all"%string; "two.apk"%string]
  = Called ["/usr/bin/redexdump"%string; "--all"%string; "two.apk/classes.dex"%string].
Proof.
  apply (proj2 (main_outcome (Some "/usr/bin/redexdump "%string)
                  (λ _, "/usr/bin/redexdump"%string) (λ _, false) "a"%string "b"%string
                  (λ apk, Some [(apk ++ "/classes.dex")%string])
                  ["one.apk"%string; "--all"%string; "two.apk"%string])
               "two.apk"%string ["two.apk/classes.dex"%string] "/usr/bin/redexdump"%string);
    reflexivity.
Defined.

Example main_no_apk :
  main None (λ s, s) (λ _, true) "a"%string "b"%string (λ _, Some []) ["--all"%string; "--string"%string]
  = SysExit "No apk given"%string.
Proof. reflexivity. Qed.

End redexdump.
